(** * Depth utilities (envs/utils/depth_utils.py): camera model, voxel binner
      and N-d multilinear splatter.

    The development embeds these functions of the module:
    - [get_camera_intrinsic_parameters] and [get_camera_matrix], over the
      real numbers (they call [tan], and their properties of interest are
      identities of exact arithmetic);
    - [bin_points], over floats that are either non-finite ([NaN],
      infinities) or exact rationals, with the quotient by the resolution
      rounded to float32 and 32-bit integer bins whose wrap-around is
      written out;
    - [splat_feat_nd], over exact rationals (float rounding error, NaN and
      infinities are outside this part of the model), with [ops.round]
      modelled as rounding half to even;
    - the projectors [get_point_cloud_from_z] and
      [get_point_cloud_from_z_t] and the transforms [transform_camera_view]
      and [transform_pose], over the floats of the binner with exact
      arithmetic on the finite ones; the rotation matrix of a transform,
      which another file computes, is an argument.

    The module [np] of the file is [mindspore.numpy]; an attribute that this
    module does not define raises [AttributeError] where the code reads it.

    Tensors are modelled as lists: a tensor of shape [B, F, n] is a list of
    [B] lists of [F] rows of length [n]; reshapes that only flatten or restore
    trailing dimensions keep the flat row-major data and carry the shape
    separately. *)

From Stdlib Require Import Reals Lra ZArith QArith Qround Qabs List Bool Lia.
From Stdlib Require Import Permutation Psatz.
From Stdlib Require String.
Import ListNotations.
Import String.StringSyntax.

(** ** Outcomes of a call *)

(** The Python exceptions the modelled code can raise.  [NonFinite] marks a
    tensor operation whose IEEE result is [inf] or [NaN] in a part of the
    model that works in exact arithmetic, where such a value has no
    counterpart. *)
Inductive failure : Set :=
| ZeroDivisionError
| ValueError
| AttributeError
| IndexError
| AssertionError
| NonFinite.

Inductive result (A : Type) : Type :=
| Ok (a : A)
| Raise (e : failure).

Arguments Ok {A} a.
Arguments Raise {A} e.

Definition bind {A B : Type} (r : result A) (k : A -> result B) : result B :=
  match r with
  | Ok a => k a
  | Raise e => Raise e
  end.

Notation "x <- r ;; k" := (bind r (fun x => k))
  (at level 61, r at next level, right associativity).

(** ** The module bound to [np] *)

(** The file binds [np] to [mindspore.numpy] ([import mindspore.numpy as
    np]).  Of the attributes the code reads from [np], that module defines
    neither [all] nor [newaxis]: reading either raises [AttributeError];
    the others are there. *)
Module MindsporeNumpy.

Local Open Scope string_scope.

Definition undefined_names : list String.string := ["all"; "newaxis"].

(** Evaluation of the expression [np.<name>]. *)
Definition getattr (name : String.string) : result unit :=
  if existsb (String.eqb name) undefined_names
  then Raise AttributeError
  else Ok tt.

(** [np.all] and [np.newaxis]. *)
Definition np_all : result unit := getattr "all".
Definition np_newaxis : result unit := getattr "newaxis".

End MindsporeNumpy.

(** ** Camera model *)

Module Camera.

Local Open Scope R_scope.

(** The [Namespace] returned by [get_camera_intrinsic_parameters]. *)
Record camera_matrix : Type := {
  cx : R; cy : R; fx : R; fy : R; xc : R; zc : R; f : R
}.

(** [np.deg2rad]. *)
Definition deg2rad (x : R) : R := x * (PI / 180).

(** [np.tan] on a tensor; the tangent has no real value where the cosine
    vanishes. *)
Definition np_tan (x : R) : result R :=
  if Req_dec_T (cos x) 0 then Raise NonFinite else Ok (tan x).

(** Division of two Python numbers: a zero divisor raises. *)
Definition py_div (a b : R) : result R :=
  if Req_dec_T b 0 then Raise ZeroDivisionError else Ok (a / b).

(** Division producing a tensor: a zero divisor gives [inf] or [NaN]. *)
Definition tensor_div (a b : R) : result R :=
  if Req_dec_T b 0 then Raise NonFinite else Ok (a / b).

Definition get_camera_intrinsic_parameters (width height hfov : R)
  : result camera_matrix :=
  aspect_ratio <- py_div (1 * width) height ;;
  temp <- np_tan (deg2rad (hfov / 2)) ;;
  let cx := width / 2 in
  let cy := height / 2 in
  fx <- tensor_div (width / 2) temp ;;
  aspect_ratio <- py_div (1 * width) height ;;
  quotient <- tensor_div temp aspect_ratio ;;
  fy <- tensor_div (height / 2) quotient ;;
  Ok {| cx := cx; cy := cy; fx := fx; fy := fy;
        xc := (width - 1) / 2; zc := (height - 1) / 2; f := fx |}.

(** The reading of the focal length [fy] as "[fx] divided by the aspect
    ratio", used to compare the specification's wording with the code. *)
Definition fy_as_fx_over_aspect (width height : R) (cm : camera_matrix) : Prop :=
  fy cm = fx cm / (width / height).

End Camera.

(** ** Numeric substrate shared by the binner and the splatter *)

(** Rounding to the nearest integer, ties to the even neighbour ([np.round],
    [ops.round]). *)
Definition round_half_even (q : Q) : Z :=
  let fl := Qfloor q in
  match Qcompare (q - inject_Z fl) (1 # 2) with
  | Lt => fl
  | Gt => (fl + 1)%Z
  | Eq => if Z.even fl then fl else (fl + 1)%Z
  end.

(** Sum of all cells of a flat grid. *)
Definition sum_list (l : list Z) : Z := fold_right Z.add 0%Z l.

(** Number of elements of a shape. *)
Definition shape_size (sh : list Z) : Z := fold_right Z.mul 1%Z sh.

(** ** Voxel binner *)

Module Binner.

Local Open Scope Z_scope.

(** An element of the point cloud: NaN, an infinity, or a number. *)
Inductive float : Type :=
| NaN
| Inf (negative : bool)
| Num (q : Q).

(** One pixel of [XYZ_cm]: channels 0, 1 and 2 of the last axis. *)
Record point : Type := mkpoint {
  chan0 : float; chan1 : float; chan2 : float
}.

Definition isnan (x : float) : bool :=
  match x with NaN => true | _ => false end.

Definition Qltb (a b : Q) : bool :=
  match Qcompare a b with Lt => true | _ => false end.

(** [x / xy_resolution] for a tensor element and a Python number. *)
Definition fdiv (x : float) (r : Q) : float :=
  match x with
  | NaN => NaN
  | Inf s => Inf (xorb s (Qltb r 0))
  | Num q =>
      if Qeq_bool r 0
      then (if Qeq_bool q 0 then NaN else Inf (Qltb q 0))
      else Num (q / r)
  end.

(** [floor (log2 |q|)] for a rational other than 0. *)
Definition ilog2 (q : Q) : Z :=
  let e := (Z.log2 (Z.abs (Qnum q)) - Z.log2 (Zpos (Qden q)))%Z in
  if Qle_bool (Qpower 2 e) (Qabs q) then e else (e - 1)%Z.

(** The float32 value nearest to a rational, ties to the even significand:
    24 significant bits, the spacing [2 ^ -149] below [2 ^ -126], and an
    infinity for a magnitude that rounds to [2 ^ 128] or beyond.  The sign
    of a zero is not kept. *)
Definition float32 (q : Q) : float :=
  if Qeq_bool q 0 then Num 0
  else
    let ulp := Qpower 2 (Z.max (ilog2 q) (- 126) - 23) in
    let r := (inject_Z (round_half_even (q / ulp)) * ulp)%Q in
    if Qle_bool (Qpower 2 128) (Qabs r) then Inf (Qltb q 0) else Num r.

(** The quotient of two elements of a float32 tensor, rounded to float32
    as the division of the tensor does. *)
Definition fdiv32 (x y : float) : float :=
  match x, y with
  | NaN, _ | _, NaN => NaN
  | Inf _, Inf _ => NaN
  | Inf s, Num r => Inf (xorb s (Qltb r 0))
  | Num _, Inf _ => Num 0
  | Num q, Num r =>
      if Qeq_bool r 0
      then (if Qeq_bool q 0 then NaN else Inf (Qltb q 0))
      else float32 (q / r)
  end.

(** [np.round] on an element. *)
Definition np_round (x : float) : float :=
  match x with
  | Num q => Num (inject_Z (round_half_even q))
  | _ => x
  end.

(** Two's complement wrap-around of 32-bit integers. *)
Definition wrap32 (z : Z) : Z := (z + 2 ^ 31) mod 2 ^ 32 - 2 ^ 31.
Definition add32 (a b : Z) : Z := wrap32 (a + b).
Definition mul32 (a b : Z) : Z := wrap32 (a * b).

Definition in_int32 (z : Z) : bool := (- 2 ^ 31 <=? z) && (z <? 2 ^ 31).

(** [x < t] between a tensor element and a threshold. *)
Definition flt (x : float) (t : Q) : bool :=
  match x with
  | NaN => false
  | Inf s => s
  | Num q => Qltb q t
  end.

(** [np.digitize(x, bins)] with the default [right=False], for increasing
    [bins]: the index of the first threshold strictly above [x], or
    [len(bins)] when there is none (also for NaN, which compares false). *)
Fixpoint digitize (x : float) (bins : list Q) : nat :=
  match bins with
  | [] => O
  | t :: rest => if flt x t then O else S (digitize x rest)
  end.

(** Adds [v] to cell [i] of a flat array. *)
Fixpoint add_at (i : nat) (v : Z) (l : list Z) : list Z :=
  match l, i with
  | [], _ => []
  | c :: rest, O => (c + v) :: rest
  | c :: rest, S j => c :: add_at j v rest
  end.

(** One entry [(i, w)] of a weighted histogram: [w] is added to cell [i]. *)
Definition tally (acc : list Z) (iw : Z * Z) : list Z :=
  add_at (Z.to_nat (fst iw)) (snd iw) acc.

(** [np.bincount(x, weights, minlength)]: the output has
    [max(minlength, max(x) + 1)] cells, cell [i] holding the sum of the
    weights of the entries equal to [i].  A negative entry raises, as in
    NumPy; [ind] below is never negative as long as the flat size of the map
    fits 32 bits. *)
Definition bincount (x : list Z) (weights : list Z) (minlength : Z)
  : result (list Z) :=
  if existsb (fun i => i <? 0) x then Raise ValueError
  else
    let n := Z.max minlength (fold_right Z.max (-1) x + 1) in
    Ok (fold_left tally (combine x weights) (repeat 0 (Z.to_nat n))).

(** [np.reshape(a, shape)] on flat data: the sizes must agree. *)
Definition reshape (a : list Z) (shape : list Z) : result (list Z) :=
  if forallb (fun d => 0 <=? d) shape
     && (Z.of_nat (length a) =? shape_size shape)
  then Ok a else Raise ValueError.

(** The input [XYZ_cms], of shape [lead ++ [height; width; 3]]: the leading
    (batch) dimensions [sh[:-3]], the two image dimensions, and the data in
    row-major order, one point per pixel. *)
Record cloud : Type := {
  lead : list Z; height : Z; width : Z; points : list point
}.

(** [n] consecutive pieces of [k] elements. *)
Fixpoint chunks {A : Type} (n k : nat) (l : list A) : list (list A) :=
  match n with
  | O => []
  | S n' => firstn k l :: chunks n' k (skipn k l)
  end.

(** The variable [counts]: the Python list it is initialised to, or the
    array assigned to it in the loop. *)
Inductive counts_var : Type :=
| PyList
| Array (data : list Z).

Section WithCast.

(** [astype(np.int32)] of a value that is not a number of the 32-bit range
    (NaN, an infinity, a number out of range) is platform-defined. *)
Variable indefinite : float -> Z.

Definition astype_int32 (x : float) : Z :=
  match x with
  | Num q =>
      let n := Z.quot (Qnum q) (Zpos (Qden q)) in
      if in_int32 n then n else wrap32 (indefinite x)
  | _ => wrap32 (indefinite x)
  end.

Section Slice.

Variables (map_size : Z) (z_bins : list Q) (xy_resolution : Q).

Definition n_z_bins : Z := Z.of_nat (length z_bins) + 1.

Definition isnotnan (p : point) : bool := negb (isnan (chan0 p)).
(** [XYZ_cm[:, :, k] / xy_resolution]: the Python number enters the
    division as a value of the type of the tensor, float32, and the quotient
    is rounded to float32 before [np.round] sees it. *)
Definition X_bin (p : point) : Z :=
  astype_int32 (np_round (fdiv32 (chan0 p) (float32 xy_resolution))).
Definition Y_bin (p : point) : Z :=
  astype_int32 (np_round (fdiv32 (chan1 p) (float32 xy_resolution))).
Definition Z_bin (p : point) : Z :=
  wrap32 (Z.of_nat (digitize (chan2 p) z_bins)).

Definition isvalid (p : point) : bool :=
  (X_bin p >=? 0) && (X_bin p <? map_size)
  && (Y_bin p >=? 0) && (Y_bin p <? map_size)
  && (Z_bin p >=? 0) && (Z_bin p <? n_z_bins)
  && isnotnan p.

(** [ind], after [ind[np.logical_not(isvalid)] = 0]. *)
Definition ind (p : point) : Z :=
  if isvalid p
  then add32 (mul32 (add32 (mul32 (Y_bin p) map_size) (X_bin p)) n_z_bins)
             (Z_bin p)
  else 0.

(** The body of the loop, for one raveled slice [XYZ_cm].  The bins and
    the seven tests of lines 132 to 139 are evaluated without raising; the
    first thing line 140 does is to read [np.all]. *)
Definition bin_slice (XYZ_cm : list point) : result (list Z) :=
  _ <- MindsporeNumpy.np_all ;;
  count <- bincount (map ind XYZ_cm)
                    (map (fun p => if isvalid p then 1 else 0) XYZ_cm)
                    (map_size * map_size * n_z_bins) ;;
  reshape count [map_size; map_size; n_z_bins].

(** The loop over the slices: every iteration assigns [counts] anew. *)
Fixpoint loop (XYZ_cms : list (list point)) (counts : counts_var)
  : result counts_var :=
  match XYZ_cms with
  | [] => Ok counts
  | XYZ_cm :: rest =>
      c <- bin_slice XYZ_cm ;;
      loop rest (Array c)
  end.

(** [XYZ_cms.reshape([-1, sh[-3], sh[-2], sh[-1]])]: the data cut into
    slices of [H * W] points, as many as there are; of an input without
    elements no slice is left. *)
Definition reshape_slices (XYZ_cms : cloud) : list (list point) :=
  let per := Z.to_nat (height XYZ_cms * width XYZ_cms) in
  chunks (length (points XYZ_cms) / per) per (points XYZ_cms).

(** [bin_points].  The result would be the flat data of an array of shape
    [sh[:-3] ++ [map_size; map_size; n_z_bins]]. *)
Definition bin_points (XYZ_cms : cloud) : result (list Z) :=
  counts <- loop (reshape_slices XYZ_cms) PyList ;;
  match counts with
  | PyList => Raise AttributeError
  | Array data =>
      reshape data (lead XYZ_cms ++ [map_size; map_size; n_z_bins])
  end.

End Slice.

End WithCast.

(** The data of a cloud fill its shape. *)
Definition well_formed (XYZ_cms : cloud) : Prop :=
  Forall (fun d => 0 <= d) (lead XYZ_cms)
  /\ 0 <= height XYZ_cms /\ 0 <= width XYZ_cms
  /\ Z.of_nat (length (points XYZ_cms))
     = shape_size (lead XYZ_cms) * (height XYZ_cms * width XYZ_cms).

(** [z_bins] is strictly increasing. *)
Fixpoint increasing (bins : list Q) : Prop :=
  match bins with
  | [] => True
  | t :: rest => Forall (fun u => (t < u)%Q) rest /\ increasing rest
  end.

(** The cast of x86 and of NumPy on it: the "integer indefinite" value. *)
Definition indefinite_x86 (_ : float) : Z := - 2 ^ 31.

End Binner.

(** ** N-d multilinear splatter *)

Module Splatter.

Local Open Scope Q_scope.

(** A tensor of shape [B, F, n] (or [B, nDims, nPt]): batch, then rows. *)
Definition tensor : Type := list (list (list Q)).

Fixpoint zip_with {A B C : Type} (g : A -> B -> C) (l : list A) (m : list B)
  : list C :=
  match l, m with
  | a :: l', b :: m' => g a b :: zip_with g l' m'
  | _, _ => []
  end.

(** The cartesian product [itertools.product([0, 1], ..., [0, 1])] of [n]
    factors, in the order Python yields it (the last position varies
    fastest). *)
Fixpoint product01 (n : nat) : list (list Z) :=
  match n with
  | O => [[]]
  | S k => map (cons 0%Z) (product01 k) ++ map (cons 1%Z) (product01 k)
  end.

(** Per element, for a grid dimension of size [D] and a neighbour choice
    [ix]: the fractional position, the neighbour index, its safety mask, its
    weight and the masked index. *)
Definition pos (D : Z) (c : Q) : Q := c * inject_Z D / 2 + inject_Z D / 2.

Definition pos_ix (D ix : Z) (c : Q) : Z := (Qfloor (pos D c) + ix)%Z.

Definition safe_ix (D ix : Z) (c : Q) : bool :=
  (0 <? pos_ix D ix c)%Z && (pos_ix D ix c <? D)%Z.

Definition mask (b : bool) : Z := if b then 1%Z else 0%Z.

Definition wts_ix (D ix : Z) (c : Q) : Q :=
  (1 - Qabs (pos D c - inject_Z (pos_ix D ix c)))
  * inject_Z (mask (safe_ix D ix c)).

Definition masked_pos_ix (D ix : Z) (c : Q) : Z :=
  (pos_ix D ix c * mask (safe_ix D ix c))%Z.

(** [pos_d] and [wts_d] for one dimension: the two rows built by the loop
    [for ix in [0, 1]] from the row [coords[b, d, :]]. *)
Definition pos_d (D : Z) (row : list Q) : list (list Z) :=
  map (fun ix => map (masked_pos_ix D ix) row) [0%Z; 1%Z].

Definition wts_d (D : Z) (row : list Q) : list (list Q) :=
  map (fun ix => map (wts_ix D ix) row) [0%Z; 1%Z].

(** The loop [for d in range(n_dims)] of one combination [ix_d], for one
    batch element: [index = index * grid_dims[d] + pos_dim[d][ix_d[d]]] and
    [wts = wts * wts_dim[d][ix_d[d]]]. *)
Fixpoint index_wts (grid_dims : list Z) (coords_b : list (list Q))
  (ix_d : list Z) (index : list Z) (wts : list Q) : list Z * list Q :=
  match grid_dims, coords_b, ix_d with
  | D :: grid_dims', row :: coords_b', ix :: ix_d' =>
      index_wts grid_dims' coords_b' ix_d'
        (zip_with (fun i e => (i * D + e)%Z) index
                  (nth (Z.to_nat ix) (pos_d D row) []))
        (zip_with Qmult wts (nth (Z.to_nat ix) (wts_d D row) []))
  | _, _, _ => (index, wts)
  end.

(** [zeros_like(wts_dim[0][0])] and [ones_like(wts_dim[0][0])], per batch
    element. *)
Definition zeros_like (coords_b : list (list Q)) : list Z :=
  map (fun _ => 0%Z) (nth 0 coords_b []).

Definition ones_like (coords_b : list (list Q)) : list Q :=
  map (fun _ => 1) (nth 0 coords_b []).

(** Reading and writing a row through an index row.  Writing assigns the
    values one after the other: of several values aimed at the same cell the
    last one stays. *)
Definition getitem (row : list Q) (idx : list Z) : list Q :=
  map (fun i => nth (Z.to_nat i) row 0) idx.

Fixpoint set_nth (i : nat) (v : Q) (row : list Q) : list Q :=
  match row, i with
  | [], _ => []
  | _ :: rest, O => v :: rest
  | c :: rest, S j => c :: set_nth j v rest
  end.

Fixpoint setitem (row : list Q) (idx : list Z) (vals : list Q) : list Q :=
  match idx, vals with
  | i :: idx', v :: vals' => setitem (set_nth (Z.to_nat i) v row) idx' vals'
  | _, _ => row
  end.

(** [row[idx] += upd], which Python runs as
    [row[idx] = row[idx] + upd]. *)
Definition iadd_at (row : list Q) (idx : list Z) (upd : list Q) : list Q :=
  setitem row idx (zip_with Qplus (getitem row idx) upd).

(** [ops.round] on an element. *)
Definition ops_round (q : Q) : Q := inject_Z (round_half_even q).

Definition map_tensor (g : Q -> Q) (t : tensor) : tensor :=
  map (map (map g)) t.

Definition in_bounds (size : Z) (idx : list Z) : bool :=
  forallb (fun i => (0 <=? i)%Z && (i <? size)%Z) idx.

Section WithQuantize.

(** The quantisation applied to the grid at the end of every iteration;
    the code uses [ops_round]. *)
Variable quantize : Q -> Q.

Section Call.

Variables (grid_dims : list Z) (feat coords : tensor).

(** One iteration of the loop over the combinations. *)
Definition pass (ix_d : list Z) (grid_flat : tensor) : result tensor :=
  match grid_dims with
  | [] => Raise IndexError
  | _ :: _ =>
      let iw :=
        map (fun coords_b =>
               index_wts grid_dims coords_b ix_d
                         (zeros_like coords_b) (ones_like coords_b))
            coords in
      let index := map fst iw in
      let wts := map snd iw in
      let updates :=
        zip_with (fun feat_b wts_b => map (fun r => zip_with Qmult r wts_b) feat_b)
                 feat wts in
      match index with
      | [index0] =>
          if in_bounds (shape_size grid_dims) index0
          then Ok (map_tensor quantize
                     (zip_with (zip_with (fun row upd => iadd_at row index0 upd))
                               grid_flat updates))
          else Raise IndexError
      | _ => Raise AssertionError
      end
  end.

Fixpoint passes (combos : list (list Z)) (grid_flat : tensor)
  : result tensor :=
  match combos with
  | [] => Ok grid_flat
  | ix_d :: rest =>
      g <- pass ix_d grid_flat ;;
      passes rest g
  end.

(** The whole function on the flat view of the grid ([view(B, F, -1)] on
    entry and [view(init_grid.shape)] on exit keep the row-major data). *)
Definition splat_with (init_grid : tensor) : result tensor :=
  passes (product01 (length grid_dims)) init_grid.

End Call.

End WithQuantize.

Definition splat_feat_nd (grid_dims : list Z) (init_grid feat coords : tensor)
  : result tensor :=
  splat_with ops_round grid_dims feat coords init_grid.

(** The same scatter with the quantisation left out, and with one rounding
    at the very end instead of one per iteration. *)
Definition splat_unrounded (grid_dims : list Z) (init_grid feat coords : tensor)
  : result tensor :=
  splat_with (fun q => q) grid_dims feat coords init_grid.

Definition splat_round_at_end (grid_dims : list Z)
  (init_grid feat coords : tensor) : result tensor :=
  g <- splat_unrounded grid_dims init_grid feat coords ;;
  Ok (map_tensor ops_round g).

(** Shapes of a call: [init_grid] is [B x F x prod grid_dims], [feat] is
    [B x F x nPt], [coords] is [B x n_dims x nPt], with at least one grid
    dimension and no empty one. *)
Definition has_shape (B F n : nat) (t : tensor) : Prop :=
  length t = B
  /\ Forall (fun t_b => length t_b = F
                        /\ Forall (fun row => length row = n) t_b) t.

Record well_shaped (B F nPt : nat) (grid_dims : list Z)
  (init_grid feat coords : tensor) : Prop := {
  ws_dims : grid_dims <> [] /\ Forall (fun D => (1 <= D)%Z) grid_dims;
  ws_grid : has_shape B F (Z.to_nat (shape_size grid_dims)) init_grid;
  ws_feat : has_shape B F nPt feat;
  ws_coords : has_shape B (length grid_dims) nPt coords
}.

(** Point [p] of a batch element lies strictly inside the grid: along every
    dimension both neighbours pass the safety mask. *)
Definition interior (grid_dims : list Z) (coords_b : list (list Q)) (p : nat)
  : Prop :=
  Forall2 (fun D row =>
             safe_ix D 0 (nth p row 0) = true
             /\ safe_ix D 1 (nth p row 0) = true)
          grid_dims coords_b.

(** The index row and the weight row a combination computes for one batch
    element. *)
Definition index_row (grid_dims : list Z) (coords_b : list (list Q))
  (ix_d : list Z) : list Z :=
  fst (index_wts grid_dims coords_b ix_d
                 (zeros_like coords_b) (ones_like coords_b)).

Definition wts_row (grid_dims : list Z) (coords_b : list (list Q))
  (ix_d : list Z) : list Q :=
  snd (index_wts grid_dims coords_b ix_d
                 (zeros_like coords_b) (ones_like coords_b)).

(** The combined weight the combination [ix_d] gives to point [p]. *)
Definition combined_weight (grid_dims : list Z) (coords_b : list (list Q))
  (ix_d : list Z) (p : nat) : Q :=
  nth p (wts_row grid_dims coords_b ix_d) 0.

(** The flat index the combination [ix_d] computes for point [p]. *)
Definition flat_index (grid_dims : list Z) (coords_b : list (list Q))
  (ix_d : list Z) (p : nat) : Z :=
  nth p (index_row grid_dims coords_b ix_d) 0%Z.

(** What one iteration does to one feature row of a single batch element,
    and to the whole element. *)
Definition pass_row (quantize : Q -> Q) (index0 : list Z) (wts_b : list Q)
  (row feat_row : list Q) : list Q :=
  map quantize (iadd_at row index0 (zip_with Qmult feat_row wts_b)).

Definition step (quantize : Q -> Q) (grid_dims : list Z)
  (feat_b coords_b : list (list Q)) (g_b : list (list Q)) (ix_d : list Z)
  : list (list Q) :=
  zip_with (pass_row quantize (index_row grid_dims coords_b ix_d)
                     (wts_row grid_dims coords_b ix_d))
           g_b feat_b.

(** Shapes of one batch element of a call. *)
Record element_shaped (F nPt : nat) (grid_dims : list Z)
  (feat_b coords_b : list (list Q)) : Prop := {
  es_nonempty : grid_dims <> [];
  es_positive : Forall (fun D => (1 <= D)%Z) grid_dims;
  es_coords_rows : length coords_b = length grid_dims;
  es_coords_cols : Forall (fun row => length row = nPt) coords_b;
  es_feat_rows : length feat_b = F;
  es_feat_cols : Forall (fun row => length row = nPt) feat_b
}.

(** The loop over the dimensions as one point sees it: [cs] holds the
    coordinates of the point, one per dimension. *)
Fixpoint point_index_wts (grid_dims : list Z) (cs : list Q) (ix_d : list Z)
  (i : Z) (w : Q) : Z * Q :=
  match grid_dims, cs, ix_d with
  | D :: grid_dims', c :: cs', ix :: ix_d' =>
      point_index_wts grid_dims' cs' ix_d'
        (i * D + masked_pos_ix D ix c)%Z (w * wts_ix D ix c)
  | _, _, _ => (i, w)
  end.

(** The coordinates of point [p]: column [p] of [coords[b]]. *)
Definition column (coords_b : list (list Q)) (p : nat) : list Q :=
  map (fun row => nth p row 0) coords_b.

(** A combination chooses the lower (0) or the upper (1) neighbour along
    every dimension. *)
Definition binary (ix_d : list Z) : Prop :=
  Forall (fun ix => ix = 0%Z \/ ix = 1%Z) ix_d.

Definition Qsum (l : list Q) : Q := fold_right Qplus 0 l.

(** Cell [i] of feature row [f] of batch element [b]. *)
Definition cell (t : tensor) (b f i : nat) : Q :=
  nth i (nth f (nth b t []) []) 0.

Definition is_integer (q : Q) : Prop := q = inject_Z (round_half_even q).

(** The code holds [index] in a float32 tensor until [index.long()]: the
    product and the sum of every round of the loop over the dimensions are
    rounded to float32.  [float32_Z] is the float32 value nearest to an
    integer, ties to the even significand (magnitudes below [2 ^ 128]), and
    [flat_index_float32] the flat index of a point computed in that way. *)
Definition float32_Z (z : Z) : Z :=
  let ulp := (2 ^ Z.max (Z.log2 (Z.abs z) - 23) 0)%Z in
  (round_half_even (inject_Z z / inject_Z ulp) * ulp)%Z.

Fixpoint point_index_float32 (grid_dims : list Z) (cs : list Q)
  (ix_d : list Z) (i : Z) : Z :=
  match grid_dims, cs, ix_d with
  | D :: grid_dims', c :: cs', ix :: ix_d' =>
      point_index_float32 grid_dims' cs' ix_d'
        (float32_Z (float32_Z (i * D) + masked_pos_ix D ix c))
  | _, _, _ => i
  end.

Definition flat_index_float32 (grid_dims : list Z) (coords_b : list (list Q))
  (ix_d : list Z) (p : nat) : Z :=
  point_index_float32 grid_dims (column coords_b p) ix_d 0.

(** Every integer up to this limit is a float32 value: on a grid of at most
    as many cells the roundings above change nothing, and the integer
    arithmetic of [index_wts] is the arithmetic of the code. *)
Definition float32_exact_limit : Z := (2 ^ 24)%Z.

End Splatter.

(** ** Points outside the grid of the splatter *)

Module SplatterDomain.

Local Open Scope Q_scope.

(** Point [p] of a batch element has a coordinate on or beyond the boundary
    of the normalised range: at most [-1] or at least [1]. *)
Definition outside (coords_b : list (list Q)) (p : nat) : Prop :=
  Exists (fun row => nth p row 0 <= - (1) \/ 1 <= nth p row 0) coords_b.

End SplatterDomain.

(** ** The three-parameter camera matrix *)

Module CameraMatrix.

Local Open Scope R_scope.

(** The [Namespace] returned by [get_camera_matrix]. *)
Record camera_matrix : Type := { xc : R; zc : R; f : R }.

Definition get_camera_matrix (width height fov : R) : result camera_matrix :=
  let xc := (width - 1) / 2 in
  let zc := (height - 1) / 2 in
  temp <- Camera.np_tan (Camera.deg2rad (fov / 2)) ;;
  f <- Camera.tensor_div (width / 2) temp ;;
  Ok {| xc := xc; zc := zc; f := f |}.

End CameraMatrix.

(** ** Point-cloud projector *)

Module Projector.

Import Binner.
Local Open Scope Q_scope.

(** The fields of the camera matrix the projector reads, as exact numbers. *)
Record camera_matrix : Type := { xc : Q; zc : Q; f : Q }.

(** [a * y] for a finite number and a tensor element. *)
Definition fmul (a : Q) (y : float) : float :=
  match y with
  | NaN => NaN
  | Inf s => if Qeq_bool a 0 then NaN else Inf (xorb s (Qltb a 0))
  | Num q => Num (a * q)
  end.

(** [np.arange(n)] and [np.arange(n - 1, -1, -1)]. *)
Definition arange (n : nat) : list Q :=
  map (fun k => inject_Z (Z.of_nat k)) (seq 0 n).

Definition arange_down (n : nat) : list Q := rev (arange n).

(** [meshgrid((xs, zs))] with [indexing="xy"]: two arrays of [len(zs)] rows
    and [len(xs)] columns. *)
Definition meshgrid (xs zs : list Q) : list (list Q) * list (list Q) :=
  (map (fun _ => xs) zs, map (fun z => map (fun _ => z) xs) zs).

(** The slice [l[skip::scale]] for a positive [scale]; [l[::scale]] is
    [strided scale 0 l]. *)
Fixpoint strided {A : Type} (scale skip : nat) (l : list A) : list A :=
  match l with
  | [] => []
  | a :: rest =>
      match skip with
      | O => a :: strided scale (scale - 1) rest
      | S k => strided scale k rest
      end
  end.

(** [a[::scale, ::scale]] on the first two axes. *)
Definition sub2 {A : Type} (scale : nat) (a : list (list A))
  : list (list A) :=
  map (strided scale 0) (strided scale 0 a).

(** [a[:, ::scale, ::scale]] on a batch. *)
Definition sub3 {A : Type} (scale : nat) (a : list (list (list A)))
  : list (list (list A)) :=
  map (sub2 scale) a.

Definition zip2 {A B C : Type} (g : A -> B -> C)
  (a : list (list A)) (b : list (list B)) : list (list C) :=
  Splatter.zip_with (Splatter.zip_with g) a b.

Section WithCamera.

Variable camera_matrix : camera_matrix.

(** [(grid - centre) * Y / camera_matrix.f] on one element. *)
Definition project (centre : Q) (g : Q) (d : float) : float :=
  fdiv (fmul (g - centre) d) (f camera_matrix).

(** The concatenation of the three channels along a new last axis. *)
Definition channels (X Y Z : list (list float)) : list (list point) :=
  zip2 (fun xy zv => mkpoint (fst xy) (snd xy) zv) (zip2 pair X Y) Z.

(** [get_point_cloud_from_z] on a depth image of two dimensions, [H] rows of
    [W] columns.  A zero [scale] is a zero slice step; otherwise [X] and [Z]
    are computed, and line 81 reads [np.newaxis] to add the channel axis. *)
Definition get_point_cloud_from_z (Y : list (list float)) (scale : nat)
  : result (list (list point)) :=
  match scale with
  | O => Raise ValueError
  | S _ =>
      let (x, z) := meshgrid (arange (length (hd [] Y)))
                             (arange_down (length Y)) in
      let X := zip2 (project (xc camera_matrix)) (sub2 scale x)
                    (sub2 scale Y) in
      let Z := zip2 (project (zc camera_matrix)) (sub2 scale z)
                    (sub2 scale Y) in
      _ <- MindsporeNumpy.np_newaxis ;;
      Ok (channels X (sub2 scale Y) Z)
  end.

(** [get_point_cloud_from_z_t] on a batch [B x H x W]: the grids are
    broadcast over the batch and the two image axes are strided. *)
Definition get_point_cloud_from_z_t (Y_t : list (list (list float)))
  (scale : nat) : result (list (list (list point))) :=
  match scale with
  | O => Raise ValueError
  | S _ =>
      let (grid_x, grid_z) :=
        meshgrid (arange (length (hd [] (hd [] Y_t))))
                 (arange_down (length (hd [] Y_t))) in
      let grid_x := map (fun _ => grid_x) Y_t in
      let grid_z := map (fun _ => grid_z) Y_t in
      let X_t := Splatter.zip_with (zip2 (project (xc camera_matrix)))
                   (sub3 scale grid_x) (sub3 scale Y_t) in
      let Z_t := Splatter.zip_with (zip2 (project (zc camera_matrix)))
                   (sub3 scale grid_z) (sub3 scale Y_t) in
      Ok (Splatter.zip_with
            (fun xy zv => channels (fst xy) (snd xy) zv)
            (Splatter.zip_with pair X_t (sub3 scale Y_t)) Z_t)
  end.

(** The cloud of one image of [H] rows and [W] columns, from grids of that
    size: one slice of what [get_point_cloud_from_z_t] stacks. *)
Definition slice_cloud (Y : list (list float)) (scale : nat)
  : list (list point) :=
  let (x, z) := meshgrid (arange (length (hd [] Y)))
                         (arange_down (length Y)) in
  channels (zip2 (project (xc camera_matrix)) (sub2 scale x) (sub2 scale Y))
           (sub2 scale Y)
           (zip2 (project (zc camera_matrix)) (sub2 scale z) (sub2 scale Y)).

End WithCamera.

(** A depth image of [H] rows and [W] columns. *)
Definition image (H W : nat) (Y : list (list float)) : Prop :=
  length Y = H /\ Forall (fun row => length row = W) Y.

(** The points of a cloud, row after row. *)
Definition ravel (XYZ : list (list point)) : list point := concat XYZ.

Definition not_infinite (d : float) : Prop :=
  match d with Inf _ => False | _ => True end.

End Projector.

(** ** The projector on a batch, and the frame transformer *)

Module Batch.

Import Binner Projector.
Local Open Scope Q_scope.

(** Broadcasting an array whose first axis has length 1 to [n] slices. *)
Definition broadcast0 {A : Type} (a : list A) (n : nat) : list A :=
  match a with
  | [a0] => repeat a0 n
  | _ => a
  end.

(** [get_point_cloud_from_z] on an input of three dimensions,
    [B x H x W]: the grids get one leading axis of length 1, and
    [[::scale, ::scale]] strides the first two axes of every array, which
    here are the batch axis and the rows; line 81 then reads
    [np.newaxis]. *)
Definition get_point_cloud_from_z (cm : camera_matrix)
  (Y : list (list (list float))) (scale : nat)
  : result (list (list (list point))) :=
  match scale with
  | O => Raise ValueError
  | S _ =>
      let (x, z) := meshgrid (arange (length (hd [] (hd [] Y))))
                             (arange_down (length (hd [] Y))) in
      let x := [x] in
      let z := [z] in
      let depth := sub2 scale Y in
      let X := Splatter.zip_with (zip2 (project cm (xc cm)))
                 (broadcast0 (sub2 scale x) (length depth)) depth in
      let Z := Splatter.zip_with (zip2 (project cm (zc cm)))
                 (broadcast0 (sub2 scale z) (length depth)) depth in
      _ <- MindsporeNumpy.np_newaxis ;;
      Ok (Splatter.zip_with
            (fun xy zv => channels (fst xy) (snd xy) zv)
            (Splatter.zip_with pair X depth) Z)
  end.

End Batch.

Module Transformer.

Import Binner.
Local Open Scope Q_scope.

(** Sum and product of two tensor elements. *)
Definition fadd (a b : float) : float :=
  match a, b with
  | NaN, _ | _, NaN => NaN
  | Inf s, Inf t => if Bool.eqb s t then Inf s else NaN
  | Inf s, Num _ => Inf s
  | Num _, Inf t => Inf t
  | Num p, Num q => Num (p + q)
  end.

Definition fmul (a b : float) : float :=
  match a, b with
  | NaN, _ | _, NaN => NaN
  | Inf s, Inf t => Inf (xorb s t)
  | Inf s, Num q => if Qeq_bool q 0 then NaN else Inf (xorb s (Qltb q 0))
  | Num p, Inf t => if Qeq_bool p 0 then NaN else Inf (xorb t (Qltb p 0))
  | Num p, Num q => Num (p * q)
  end.

(** A 3 x 3 matrix, row by row.  The transforms obtain theirs from
    [ru.get_r_matrix], a function of another file: the matrix it returns is
    an argument here. *)
Definition row : Type := (float * float * float)%type.
Definition matrix : Type := (row * row * row)%type.

(** One row of [np.matmul(XYZ.reshape(-1, 3), R.T)]: the point times a row
    of [R]. *)
Definition dot (p : point) (r : row) : float :=
  let '(r0, r1, r2) := r in
  fadd (fadd (fmul (chan0 p) r0) (fmul (chan1 p) r1)) (fmul (chan2 p) r2).

Definition rotate (R : matrix) (p : point) : point :=
  let '(R0, R1, R2) := R in
  mkpoint (dot p R0) (dot p R1) (dot p R2).

(** [transform_camera_view] on an array [H x W x 3]: the rotation, then
    [XYZ[..., 2] = XYZ[..., 2] + sensor_height]. *)
Definition transform_camera_view (R : matrix) (XYZ : list (list point))
  (sensor_height : Q) : list (list point) :=
  let XYZ := map (map (rotate R)) XYZ in
  map (map (fun p => mkpoint (chan0 p) (chan1 p)
                             (fadd (chan2 p) (Num sensor_height)))) XYZ.

(** [transform_pose] on an array [H x W x 3]: the rotation, then the
    position of the camera added to channels 0 and 1. *)
Definition transform_pose (R : matrix) (XYZ : list (list point))
  (current_pose : Q * Q) : list (list point) :=
  let XYZ := map (map (rotate R)) XYZ in
  let XYZ := map (map (fun p => mkpoint (fadd (chan0 p) (Num (fst current_pose)))
                                        (chan1 p) (chan2 p))) XYZ in
  map (map (fun p => mkpoint (chan0 p)
                             (fadd (chan1 p) (Num (snd current_pose)))
                             (chan2 p))) XYZ.

(** What the two transforms do to one point. *)
Definition camera_view_point (R : matrix) (sensor_height : Q) (p : point)
  : point :=
  mkpoint (chan0 (rotate R p)) (chan1 (rotate R p))
          (fadd (chan2 (rotate R p)) (Num sensor_height)).

Definition pose_point (R : matrix) (current_pose : Q * Q) (p : point)
  : point :=
  mkpoint (fadd (chan0 (rotate R p)) (Num (fst current_pose)))
          (fadd (chan1 (rotate R p)) (Num (snd current_pose)))
          (chan2 (rotate R p)).

(** A point with a NaN coordinate; a point of three NaN coordinates; a point
    of three finite coordinates; a matrix of finite entries. *)
Definition has_nan (p : point) : bool :=
  isnan (chan0 p) || isnan (chan1 p) || isnan (chan2 p).

Definition all_nan (p : point) : Prop :=
  chan0 p = NaN /\ chan1 p = NaN /\ chan2 p = NaN.

Definition finite (x : float) : Prop :=
  match x with Num _ => True | _ => False end.

Definition all_finite (p : point) : Prop :=
  finite (chan0 p) /\ finite (chan1 p) /\ finite (chan2 p).

Definition finite_row (r : row) : Prop :=
  let '(r0, r1, r2) := r in finite r0 /\ finite r1 /\ finite r2.

Definition finite_matrix (R : matrix) : Prop :=
  let '(R0, R1, R2) := R in finite_row R0 /\ finite_row R1 /\ finite_row R2.

End Transformer.

(** ** Distances between points *)

Module Pipeline.

Import Binner Transformer.

(** The depth of a pixel, when finite, as a number. *)
Definition coord (x : float) : Q :=
  match x with Num q => q | _ => 0%Q end.

(** The square of the distance between two points of finite coordinates. *)
Definition dist2 (p q : point) : Q :=
  ((coord (chan0 p) - coord (chan0 q)) ^ 2
   + (coord (chan1 p) - coord (chan1 q)) ^ 2
   + (coord (chan2 p) - coord (chan2 q)) ^ 2)%Q.

(** The columns of a matrix of finite entries have length 1 and are
    orthogonal to one another, as those of a rotation matrix are. *)
Definition orthonormal (R : matrix) : Prop :=
  let '((a, b, c), (d, e, f), (g, h, i)) := R in
  let a := coord a in let b := coord b in let c := coord c in
  let d := coord d in let e := coord e in let f := coord f in
  let g := coord g in let h := coord h in let i := coord i in
  (a * a + d * d + g * g == 1
   /\ b * b + e * e + h * h == 1
   /\ c * c + f * f + i * i == 1
   /\ a * b + d * e + g * h == 0
   /\ a * c + d * f + g * i == 0
   /\ b * c + e * f + h * i == 0)%Q.

End Pipeline.

(** * Properties of the camera model *)

Section CameraFacts.

Import Camera.
Local Open Scope R_scope.

Ltac camera_guards :=
  unfold get_camera_intrinsic_parameters, bind, py_div, np_tan, tensor_div;
  repeat match goal with
         | |- context [Req_dec_T ?a ?b] => destruct (Req_dec_T a b)
         end;
  try discriminate; try contradiction.

(** The call returns exactly when no division of the exact computation has
    a zero divisor. *)
Lemma get_camera_intrinsic_parameters_returns (width height hfov : R) :
  height <> 0 -> width <> 0 ->
  cos (deg2rad (hfov / 2)) <> 0 -> tan (deg2rad (hfov / 2)) <> 0 ->
  exists cm, get_camera_intrinsic_parameters width height hfov = Ok cm.
Proof.
  intros Hh Hw Hc Ht.
  assert (Ha : 1 * width / height <> 0).
  { unfold Rdiv. rewrite Rmult_1_l. apply Rmult_integral_contrapositive_currified; auto.
    apply Rinv_neq_0_compat; assumption. }
  assert (Hq : tan (deg2rad (hfov / 2)) / (1 * width / height) <> 0).
  { unfold Rdiv at 1. apply Rmult_integral_contrapositive_currified; auto.
    apply Rinv_neq_0_compat; assumption. }
  camera_guards. eexists; reflexivity.
Qed.

Lemma get_camera_intrinsic_parameters_inv (width height hfov : R) cm :
  get_camera_intrinsic_parameters width height hfov = Ok cm ->
  height <> 0 /\ width <> 0 /\ tan (deg2rad (hfov / 2)) <> 0
  /\ fx cm = (width / 2) / tan (deg2rad (hfov / 2))
  /\ fy cm = (height / 2) / (tan (deg2rad (hfov / 2)) / (1 * width / height)).
Proof.
  camera_guards. intros [= <-]. simpl.
  repeat split; auto.
  intros ->. apply n2. unfold Rdiv. ring.
Qed.

Lemma deg2rad_45 : deg2rad (90 / 2) = PI / 4.
Proof. unfold deg2rad. field. Qed.

Lemma cos_PI4_neq_0 : cos (PI / 4) <> 0.
Proof.
  pose proof PI_RGT_0 as Hpi.
  apply Rgt_not_eq. apply cos_gt_0; lra.
Qed.

(** C10: whenever the call returns, the vertical focal length equals the
    horizontal one, whatever the aspect ratio; and the call does return as
    soon as no divisor of the exact computation is zero. *)
Theorem fy_equals_fx (width height hfov : R) :
  (forall cm,
      get_camera_intrinsic_parameters width height hfov = Ok cm ->
      fy cm = fx cm)
  /\ (height <> 0 -> width <> 0 ->
      cos (deg2rad (hfov / 2)) <> 0 -> tan (deg2rad (hfov / 2)) <> 0 ->
      exists cm, get_camera_intrinsic_parameters width height hfov = Ok cm).
Proof.
  split.
  - intros cm H.
    destruct (get_camera_intrinsic_parameters_inv _ _ _ _ H)
      as (Hh & Hw & Ht & -> & ->).
    field. repeat split; assumption.
  - apply get_camera_intrinsic_parameters_returns.
Qed.

Lemma fy_equals_fx_witness :
  exists cm, get_camera_intrinsic_parameters 4 3 90 = Ok cm /\ fy cm = fx cm.
Proof.
  destruct (fy_equals_fx 4 3 90) as [Heq Hret].
  destruct Hret as [cm Hcm].
  - lra.
  - lra.
  - rewrite deg2rad_45. exact cos_PI4_neq_0.
  - rewrite deg2rad_45, tan_PI4. lra.
  - exists cm. split; [exact Hcm | exact (Heq cm Hcm)].
Defined.

(** C9, as stated, fails: for a 2 x 1 image with a 90 degree field of view
    the call returns [fy = 1], while [fx] divided by the aspect ratio is
    [1 / 2]. *)
Lemma fy_not_fx_over_aspect :
  exists cm,
    get_camera_intrinsic_parameters 2 1 90 = Ok cm
    /\ fx cm = 1 /\ fy cm = 1
    /\ ~ fy_as_fx_over_aspect 2 1 cm.
Proof.
  destruct (get_camera_intrinsic_parameters_returns 2 1 90) as [cm Hcm].
  - lra.
  - lra.
  - rewrite deg2rad_45. exact cos_PI4_neq_0.
  - rewrite deg2rad_45, tan_PI4. lra.
  - exists cm. split; [exact Hcm|].
    destruct (get_camera_intrinsic_parameters_inv _ _ _ _ Hcm)
      as (_ & _ & _ & Hfx & Hfy).
    rewrite deg2rad_45, tan_PI4 in Hfx, Hfy.
    assert (Ex : fx cm = 1) by (rewrite Hfx; field).
    assert (Ey : fy cm = 1) by (rewrite Hfy; field).
    repeat split; auto.
    unfold fy_as_fx_over_aspect. rewrite Ex, Ey. lra.
Qed.

(** C9, amended: [fx] is the half width over the tangent of the half field
    of view, and [fy] is the half height over that tangent divided by the
    aspect ratio: the aspect ratio divides the tangent, not [fx].  So [fy]
    is [fx] divided by the aspect ratio exactly when the image is square. *)
Theorem fy_from_aspect_ratio (width height hfov : R) cm :
  get_camera_intrinsic_parameters width height hfov = Ok cm ->
  fx cm = (width / 2) / tan (deg2rad (hfov / 2))
  /\ fy cm = (height / 2) / (tan (deg2rad (hfov / 2)) / (width / height))
  /\ (fy_as_fx_over_aspect width height cm <-> width = height).
Proof.
  intros H.
  destruct (get_camera_intrinsic_parameters_inv _ _ _ _ H)
    as (Hh & Hw & Ht & Hfx & Hfy).
  split; [exact Hfx|]. split.
  - rewrite Hfy. field. repeat split; assumption.
  - unfold fy_as_fx_over_aspect. rewrite Hfx, Hfy. split.
    + intros E.
      assert (E' : width * width = width * height).
      { apply (f_equal (fun x => x * (2 * tan (deg2rad (hfov / 2)) * width))) in E.
        field_simplify in E; try (repeat split; assumption).
        nra. }
      apply (Rmult_eq_reg_l width); assumption.
    + intros ->. field. repeat split; assumption.
Qed.

Lemma fy_from_aspect_ratio_witness :
  exists cm,
    get_camera_intrinsic_parameters 4 3 90 = Ok cm
    /\ fy cm = (3 / 2) / (tan (deg2rad (90 / 2)) / (4 / 3))
    /\ ~ fy_as_fx_over_aspect 4 3 cm.
Proof.
  destruct (get_camera_intrinsic_parameters_returns 4 3 90) as [cm Hcm].
  - lra.
  - lra.
  - rewrite deg2rad_45. exact cos_PI4_neq_0.
  - rewrite deg2rad_45, tan_PI4. lra.
  - exists cm. split; [exact Hcm|].
    destruct (fy_from_aspect_ratio 4 3 90 cm Hcm) as (_ & Hfy & Hiff).
    split; [exact Hfy|].
    intros Hc. apply Hiff in Hc. lra.
Defined.

End CameraFacts.


(** * Properties of the voxel binner *)

Section BinnerFacts.

Import Binner.
Local Open Scope Z_scope.

Lemma wrap32_small (z : Z) : - 2 ^ 31 <= z < 2 ^ 31 -> wrap32 z = z.
Proof. intros H. unfold wrap32. rewrite Z.mod_small; lia. Qed.

Lemma Qltb_lt (a b : Q) : Qltb a b = true <-> (a < b)%Q.
Proof.
  unfold Qltb. rewrite Qlt_alt. destruct (a ?= b)%Q; split; congruence.
Qed.

Lemma Qltb_ge (a b : Q) : Qltb a b = false <-> (b <= a)%Q.
Proof.
  rewrite <- not_true_iff_false, Qltb_lt. split.
  - apply Qnot_lt_le.
  - apply Qle_not_lt.
Qed.

Lemma chunks_length {A} (n k : nat) (l : list A) :
  length (chunks n k l) = n.
Proof.
  revert l. induction n as [|n IH]; intros l; [reflexivity|].
  cbn [chunks length]. rewrite IH. reflexivity.
Qed.

Lemma digitize_le_length x bins : (digitize x bins <= length bins)%nat.
Proof.
  induction bins as [|t rest IH]; cbn [digitize length]; [lia|].
  destruct (flt x t); lia.
Qed.

(** [digitize] puts a value at or above the threshold of index [i], and
    below the next threshold if there is one, into bucket [i + 1]. *)
Lemma digitize_interval bins : forall i t z,
  increasing bins -> nth_error bins i = Some t -> (t <= z)%Q ->
  (forall u, nth_error bins (S i) = Some u -> (z < u)%Q) ->
  digitize (Num z) bins = S i.
Proof.
  induction bins as [|t0 rest IH]; intros i t z Hinc Hnth Hz Hnext.
  - destruct i; discriminate.
  - destruct Hinc as [Hlt Hinc]. destruct i as [|i]; cbn [digitize flt].
    + injection Hnth as <-.
      rewrite (proj2 (Qltb_ge z t0)) by exact Hz.
      f_equal. destruct rest as [|t1 rest']; [reflexivity|].
      cbn [digitize flt].
      rewrite (proj2 (Qltb_lt z t1)) by (apply Hnext; reflexivity).
      reflexivity.
    + cbn [nth_error] in Hnth.
      assert (Ht : (t0 < t)%Q).
      { rewrite Forall_forall in Hlt. apply Hlt.
        eapply nth_error_In; eauto. }
      rewrite (proj2 (Qltb_ge z t0))
        by (apply Qlt_le_weak; eapply Qlt_le_trans; eauto).
      f_equal. apply (IH i t); auto.
Qed.

(** A value below the first threshold goes to bucket 0. *)
Lemma digitize_below t rest z :
  (z < t)%Q -> digitize (Num z) (t :: rest) = O.
Proof.
  intros H. cbn [digitize flt]. rewrite (proj2 (Qltb_lt z t)) by exact H.
  reflexivity.
Qed.

Lemma increasing_next bins : forall i t u,
  increasing bins -> nth_error bins i = Some t ->
  nth_error bins (S i) = Some u -> (t < u)%Q.
Proof.
  induction bins as [|t0 rest IH]; intros i t u Hinc Ht Hu.
  - destruct i; discriminate.
  - destruct Hinc as [Hlt Hinc]. destruct i as [|i].
    + injection Ht as <-.
      rewrite Forall_forall in Hlt. apply Hlt.
      apply (nth_error_In rest 0). exact Hu.
    + eapply (IH i); eauto.
Qed.

Section Slice.

Variable indefinite : float -> Z.
Variables (map_size : Z) (z_bins : list Q) (xy_resolution : Q).

(** Line 140 raises for every slice. *)
Lemma bin_slice_raises XYZ_cm :
  bin_slice indefinite map_size z_bins xy_resolution XYZ_cm
  = Raise AttributeError.
Proof. reflexivity. Qed.

(** The loop does not get past its first slice. *)
Lemma loop_raises XYZ_cm rest counts :
  loop indefinite map_size z_bins xy_resolution (XYZ_cm :: rest) counts
  = Raise AttributeError.
Proof. cbn [loop]. rewrite bin_slice_raises. reflexivity. Qed.

Lemma bin_points_raises XYZ_cms :
  bin_points indefinite map_size z_bins xy_resolution XYZ_cms
  = Raise AttributeError.
Proof.
  unfold bin_points. destruct (reshape_slices XYZ_cms) as [|XYZ_cm rest].
  - reflexivity.
  - rewrite loop_raises. reflexivity.
Qed.

(** The reshape of a cloud with pixels leaves one slice per batch index. *)
Lemma reshape_slices_length XYZ_cms :
  well_formed XYZ_cms -> 0 < height XYZ_cms * width XYZ_cms ->
  Z.of_nat (length (reshape_slices XYZ_cms)) = shape_size (lead XYZ_cms).
Proof.
  intros (Hlead & HH & HW & Hlen) Hpix.
  unfold reshape_slices. rewrite chunks_length.
  assert (Hn : 0 <= shape_size (lead XYZ_cms)).
  { clear Hlen. induction (lead XYZ_cms) as [|d l IH];
      cbn [shape_size fold_right]; [lia|].
    inversion Hlead; subst. fold (shape_size l). apply Z.mul_nonneg_nonneg;
      auto. }
  set (per := Z.to_nat (height XYZ_cms * width XYZ_cms)).
  assert (Hper : (0 < per)%nat) by (unfold per; lia).
  assert (E : length (points XYZ_cms)
              = (Z.to_nat (shape_size (lead XYZ_cms)) * per)%nat).
  { unfold per. rewrite <- Z2Nat.inj_mul by lia. rewrite <- Hlen.
    rewrite Nat2Z.id. reflexivity. }
  rewrite E, Nat.div_mul by lia. rewrite Z2Nat.id by lia. reflexivity.
Qed.

End Slice.

(** The quotient is rounded to float32 before it is rounded to an integer:
    the float32 number nearest to 0.35, divided by 0.1, gives the float32
    number 3.5 and bin 4, while the exact quotient is below 3.5. *)
Lemma quotient_rounded_to_float32 :
  let y := (11744051 # 33554432)%Q in
  float32 (35 # 100) = Num y
  /\ Y_bin indefinite_x86 (1 # 10) (mkpoint (Num 0) (Num y) (Num 0)) = 4
  /\ round_half_even (y / (1 # 10)) = 3.
Proof. vm_compute. repeat split. Qed.

(** C1: [bin_points] returns no grid, whatever its input.  When the reshape
    leaves no slice, the loop leaves [counts] the list it was initialised
    to, which has no [reshape] (line 148); when it leaves one or more, the
    first of them raises at line 140, where [np.all] is read. *)
Theorem bin_points_never_returns
  (indefinite : float -> Z) (map_size : Z) (z_bins : list Q)
  (xy_resolution : Q) (XYZ_cms : cloud) :
  bin_points indefinite map_size z_bins xy_resolution XYZ_cms
  = Raise AttributeError
  /\ (reshape_slices XYZ_cms = [] ->
      loop indefinite map_size z_bins xy_resolution (reshape_slices XYZ_cms)
           PyList = Ok PyList)
  /\ (forall XYZ_cm rest,
         reshape_slices XYZ_cms = XYZ_cm :: rest ->
         bin_slice indefinite map_size z_bins xy_resolution XYZ_cm
         = Raise AttributeError
         /\ loop indefinite map_size z_bins xy_resolution
                 (reshape_slices XYZ_cms) PyList
            = Raise AttributeError).
Proof.
  split; [apply bin_points_raises|].
  split.
  - intros ->. reflexivity.
  - intros XYZ_cm rest ->. split; [apply bin_slice_raises|].
    apply loop_raises.
Qed.

(** The failing input of C1: one slice of one point that is valid in every
    respect. *)
Lemma bin_points_one_point :
  bin_points indefinite_x86 2 [0%Q; 1%Q; 2%Q] 1%Q
             {| lead := []; height := 1; width := 1;
                points := [mkpoint (Num 1) (Num 0) (Num (1 # 2))] |}
  = Raise AttributeError.
Proof. vm_compute. reflexivity. Qed.

(** C5: on a batch, the reshape leaves one slice per batch index, the loop
    raises in its first iteration whatever the slices after the first, and
    the call raises [AttributeError]: no histogram is stacked.  Called on
    any one of the slices alone, [bin_points] raises as well. *)
Theorem bin_points_batch_raises
  (indefinite : float -> Z) (map_size : Z) (z_bins : list Q)
  (xy_resolution : Q) (XYZ_cms : cloud) :
  lead XYZ_cms <> [] ->
  well_formed XYZ_cms ->
  0 < height XYZ_cms * width XYZ_cms ->
  Z.of_nat (length (reshape_slices XYZ_cms)) = shape_size (lead XYZ_cms)
  /\ (forall XYZ_cm rest counts,
         loop indefinite map_size z_bins xy_resolution (XYZ_cm :: rest) counts
         = Raise AttributeError)
  /\ bin_points indefinite map_size z_bins xy_resolution XYZ_cms
     = Raise AttributeError
  /\ (forall XYZ_cm,
         In XYZ_cm (reshape_slices XYZ_cms) ->
         bin_points indefinite map_size z_bins xy_resolution
                    {| lead := []; height := height XYZ_cms;
                       width := width XYZ_cms; points := XYZ_cm |}
         = Raise AttributeError).
Proof.
  intros _ Hwf Hpix.
  split; [apply reshape_slices_length; assumption|].
  split; [intros; apply loop_raises|].
  split; [apply bin_points_raises|].
  intros; apply bin_points_raises.
Qed.

Lemma bin_points_batch_raises_witness :
  bin_points indefinite_x86 2 [0%Q; 1%Q; 2%Q] 1%Q
             {| lead := [2]; height := 1; width := 1;
                points := [mkpoint (Num 0) (Num 0) (Num (1 # 2));
                           mkpoint (Num 1) (Num 1) (Num 5)] |}
  = Raise AttributeError.
Proof.
  apply (bin_points_batch_raises indefinite_x86 2 [0%Q; 1%Q; 2%Q] 1%Q
           {| lead := [2]; height := 1; width := 1;
              points := [mkpoint (Num 0) (Num 0) (Num (1 # 2));
                         mkpoint (Num 1) (Num 1) (Num 5)] |}).
  - discriminate.
  - unfold well_formed. simpl. repeat split; try lia.
    repeat constructor. lia.
  - reflexivity.
Defined.

(** C6, as stated, fails: with thresholds 0, 1, 2 a point of height exactly
    1, the threshold of index 1, gets bucket 2, not bucket 1. *)
Lemma threshold_height_goes_up :
  let z_bins := [0%Q; 1%Q; 2%Q] in
  let p := mkpoint (Num 0) (Num 0) (Num 1) in
  nth_error z_bins 1 = Some 1%Q
  /\ Z_bin z_bins p = 2
  /\ Z_bin z_bins p <> 1.
Proof. vm_compute. repeat split; discriminate. Qed.

(** C6, amended: for strictly increasing thresholds, the bucket [Z_bin]
    computed for a point whose height is exactly the threshold of index [i]
    is [i + 1], the higher-indexed of the two adjacent buckets, and so it is
    for every height from that threshold up to the next one, excluded; a
    height below the threshold, and not below the one before it, gets
    bucket [i]. *)
Theorem threshold_height_bucket
  (z_bins : list Q) (p : point) (i : nat) (t z : Q) :
  n_z_bins z_bins <= 2 ^ 31 ->
  increasing z_bins ->
  nth_error z_bins i = Some t ->
  chan2 p = Num z -> (z == t)%Q ->
  Z_bin z_bins p = Z.of_nat i + 1
  /\ (forall q z',
         chan2 q = Num z' -> (t <= z')%Q ->
         (forall u, nth_error z_bins (S i) = Some u -> (z' < u)%Q) ->
         Z_bin z_bins q = Z.of_nat i + 1)
  /\ (forall q z',
         chan2 q = Num z' -> (z' < t)%Q ->
         (forall j s, i = S j -> nth_error z_bins j = Some s -> (s <= z')%Q) ->
         Z_bin z_bins q = Z.of_nat i).
Proof.
  intros Hfit Hinc Hnth Hz Hzt.
  assert (Hi : (i < length z_bins)%nat)
    by (apply nth_error_Some; congruence).
  unfold n_z_bins in Hfit.
  assert (Hup : forall q z',
             chan2 q = Num z' -> (t <= z')%Q ->
             (forall u, nth_error z_bins (S i) = Some u -> (z' < u)%Q) ->
             Z_bin z_bins q = Z.of_nat i + 1).
  { intros q z' Hq Hle Hnext. unfold Z_bin.
    rewrite Hq, (digitize_interval z_bins i t z') by assumption.
    rewrite wrap32_small; lia. }
  split; [|split].
  - apply (Hup p z Hz); [rewrite Hzt; apply Qle_refl|].
    intros u Hu. rewrite Hzt. eapply increasing_next; eauto.
  - exact Hup.
  - intros q z' Hq Hlt Hprev. unfold Z_bin. rewrite Hq.
    destruct i as [|j].
    + destruct z_bins as [|t0 rest]; [discriminate|].
      injection Hnth as <-. rewrite digitize_below by exact Hlt.
      rewrite wrap32_small; lia.
    + destruct (nth_error z_bins j) as [s|] eqn:Hs.
      * assert (E : digitize (Num z') z_bins = S j).
        { apply (digitize_interval z_bins j s z'); auto.
          - apply (Hprev j s); auto.
          - intros u Hu. rewrite Hnth in Hu. injection Hu as <-. exact Hlt. }
        rewrite E, wrap32_small; lia.
      * apply nth_error_None in Hs. lia.
Qed.

Lemma threshold_height_bucket_witness :
  let z_bins := [0%Q; 1%Q; 2%Q] in
  let p := mkpoint (Num 1) (Num 0) (Num 1) in
  Z_bin z_bins p = 2.
Proof.
  intros z_bins p.
  apply (threshold_height_bucket z_bins p 1 1%Q 1%Q).
  - vm_compute. discriminate.
  - simpl. repeat split; repeat constructor.
  - reflexivity.
  - reflexivity.
  - reflexivity.
Defined.

End BinnerFacts.


(** * Properties of the splatter *)

Section SplatterFacts.

Import Splatter.
Local Open Scope Q_scope.

(** *** Rounding *)

Lemma round_half_even_comp (q r : Q) :
  q == r -> round_half_even q = round_half_even r.
Proof.
  intros H. unfold round_half_even.
  assert (Hf : Qfloor q = Qfloor r) by (rewrite H; reflexivity).
  rewrite Hf.
  assert (Hc : (q - inject_Z (Qfloor r) ?= 1 # 2)
               = (r - inject_Z (Qfloor r) ?= 1 # 2))
    by (rewrite H; reflexivity).
  rewrite Hc. reflexivity.
Qed.

Lemma round_half_even_inject (z : Z) : round_half_even (inject_Z z) = z.
Proof.
  unfold round_half_even. rewrite Qfloor_Z.
  assert (Hc : (inject_Z z - inject_Z z ?= 1 # 2) = Lt).
  { apply Qlt_alt. setoid_replace (inject_Z z - inject_Z z) with 0 by ring.
    reflexivity. }
  rewrite Hc. reflexivity.
Qed.

Lemma ops_round_comp (q r : Q) : q == r -> ops_round q = ops_round r.
Proof. intros H. unfold ops_round. now rewrite (round_half_even_comp q r H). Qed.

Lemma ops_round_idempotent (q : Q) : ops_round (ops_round q) = ops_round q.
Proof. unfold ops_round. now rewrite round_half_even_inject. Qed.

Lemma ops_round_is_integer (q : Q) : is_integer (ops_round q).
Proof.
  unfold is_integer. fold (ops_round (ops_round q)).
  symmetry. apply ops_round_idempotent.
Qed.

(** *** Rows *)

Lemma zip_with_length {A B C} (g : A -> B -> C) l m :
  length l = length m -> length (zip_with g l m) = length l.
Proof.
  revert m; induction l as [|a l IH]; intros [|b m] H; simpl in *;
    try discriminate; auto.
Qed.

Lemma zip_with_nth {A B C} (g : A -> B -> C) l m p da db dc :
  (p < length l)%nat -> length l = length m ->
  nth p (zip_with g l m) dc = g (nth p l da) (nth p m db).
Proof.
  revert m p; induction l as [|a l IH]; intros [|b m] [|p] Hp H; simpl in *;
    try discriminate; try lia; auto.
  apply IH; lia.
Qed.

Lemma set_nth_length i v row : length (set_nth i v row) = length row.
Proof.
  revert i; induction row as [|c row IH]; intros [|i]; simpl; auto.
Qed.

Lemma nth_set_nth i j v row :
  nth j (set_nth i v row) 0
  = if (Nat.eqb j i && Nat.ltb i (length row))%bool then v else nth j row 0.
Proof.
  revert i j; induction row as [|c row IH]; intros i j.
  - simpl. destruct i; rewrite andb_false_r; reflexivity.
  - destruct i as [|i], j as [|j]; simpl; auto.
Qed.

Lemma setitem_length row idx vals :
  length (setitem row idx vals) = length row.
Proof.
  revert row vals; induction idx as [|i idx IH]; intros row [|v vals];
    simpl; auto.
  rewrite IH. apply set_nth_length.
Qed.

(** A property of cell [j] that holds before the write, and of every value
    written to cell [j], holds after the write. *)
Lemma setitem_cell_invariant (P : Q -> Prop) (j : nat) row idx vals :
  P (nth j row 0) ->
  (forall p, (p < length idx)%nat -> (p < length vals)%nat ->
             Z.to_nat (nth p idx 0%Z) = j -> P (nth p vals 0)) ->
  P (nth j (setitem row idx vals) 0).
Proof.
  revert row vals; induction idx as [|i idx IH]; intros row [|v vals] H0 H;
    simpl; auto.
  apply IH.
  - rewrite nth_set_nth.
    destruct (Nat.eqb j (Z.to_nat i) && Nat.ltb (Z.to_nat i) (length row))%bool
      eqn:E; auto.
    apply andb_true_iff in E. destruct E as [E _].
    apply Nat.eqb_eq in E. apply (H 0%nat); simpl; auto; lia.
  - intros p Hp Hv Hj. apply (H (S p)); simpl; auto; lia.
Qed.

Lemma getitem_length row idx : length (getitem row idx) = length idx.
Proof. unfold getitem. apply length_map. Qed.

Lemma getitem_nth row idx p :
  (p < length idx)%nat ->
  nth p (getitem row idx) 0 = nth (Z.to_nat (nth p idx 0%Z)) row 0.
Proof.
  revert p; induction idx as [|i idx IH]; intros [|p] Hp; simpl in *;
    try lia; auto.
  apply IH. lia.
Qed.

(** Cell 0 keeps its value, up to equality of rationals, when every update
    aimed at it is zero. *)
Lemma iadd_at_cell0 row idx upd :
  length idx = length upd ->
  (forall p, (p < length idx)%nat ->
             (0 <= nth p idx 0%Z)%Z
             /\ (nth p idx 0%Z = 0%Z -> nth p upd 0 == 0)) ->
  nth 0 (iadd_at row idx upd) 0 == nth 0 row 0.
Proof.
  intros Hlen H. unfold iadd_at.
  apply (setitem_cell_invariant (fun q => q == nth 0 row 0)).
  - reflexivity.
  - intros p Hp _ Hj.
    destruct (H p Hp) as [Hnn Hz].
    assert (Hi : nth p idx 0%Z = 0%Z) by lia.
    rewrite (zip_with_nth Qplus _ _ p 0 0 0).
    + rewrite getitem_nth by exact Hp.
      rewrite Hi, (Hz Hi). simpl. ring.
    + rewrite getitem_length. exact Hp.
    + rewrite getitem_length. exact Hlen.
Qed.

(** *** The loop over the dimensions, point by point *)

Lemma pos_d_nth D row ix :
  ix = 0%Z \/ ix = 1%Z ->
  nth (Z.to_nat ix) (pos_d D row) [] = map (masked_pos_ix D ix) row.
Proof. intros [-> | ->]; reflexivity. Qed.

Lemma wts_d_nth D row ix :
  ix = 0%Z \/ ix = 1%Z ->
  nth (Z.to_nat ix) (wts_d D row) [] = map (wts_ix D ix) row.
Proof. intros [-> | ->]; reflexivity. Qed.

Lemma index_wts_length grid_dims : forall coords_b ix_d index wts n,
  binary ix_d ->
  Forall (fun row => length row = n) coords_b ->
  length index = n -> length wts = n ->
  length (fst (index_wts grid_dims coords_b ix_d index wts)) = n
  /\ length (snd (index_wts grid_dims coords_b ix_d index wts)) = n.
Proof.
  induction grid_dims as [|D dims IH];
    intros coords_b ix_d index wts n Hb Hrows Hi Hw; [simpl; auto|].
  destruct coords_b as [|row rows]; [simpl; auto|].
  destruct ix_d as [|ix ix_d]; [simpl; auto|].
  inversion Hb as [|? ? Hix Hb']; subst.
  inversion Hrows as [|? ? Hrow Hrows']; subst.
  cbn [index_wts]. rewrite pos_d_nth, wts_d_nth by assumption.
  apply IH; auto.
  - rewrite zip_with_length; rewrite ?length_map; congruence.
  - rewrite zip_with_length; rewrite ?length_map; congruence.
Qed.

Lemma index_wts_nth grid_dims : forall coords_b ix_d index wts n p,
  binary ix_d ->
  Forall (fun row => length row = n) coords_b ->
  length index = n -> length wts = n -> (p < n)%nat ->
  (nth p (fst (index_wts grid_dims coords_b ix_d index wts)) 0%Z,
   nth p (snd (index_wts grid_dims coords_b ix_d index wts)) 0)
  = point_index_wts grid_dims (column coords_b p) ix_d
                    (nth p index 0%Z) (nth p wts 0).
Proof.
  induction grid_dims as [|D dims IH];
    intros coords_b ix_d index wts n p Hb Hrows Hi Hw Hp; [reflexivity|].
  destruct coords_b as [|row rows]; [reflexivity|].
  destruct ix_d as [|ix ix_d]; [reflexivity|].
  inversion Hb as [|? ? Hix Hb']; subst.
  inversion Hrows as [|? ? Hrow Hrows']; subst.
  cbn [index_wts column map point_index_wts].
  rewrite pos_d_nth, wts_d_nth by assumption.
  assert (Hi' : length (zip_with (fun i e => (i * D + e)%Z) index
                                 (map (masked_pos_ix D ix) row)) = length index)
    by (rewrite zip_with_length; rewrite ?length_map; congruence).
  assert (Hw' : length (zip_with Qmult wts (map (wts_ix D ix) row))
                = length index)
    by (rewrite zip_with_length; rewrite ?length_map; congruence).
  rewrite (IH rows ix_d _ _ (length index) p Hb' Hrows' Hi' Hw' Hp).
  fold (column rows p).
  rewrite (zip_with_nth _ index _ p 0%Z 0%Z 0%Z)
    by (rewrite ?length_map; lia).
  rewrite (zip_with_nth Qmult wts _ p 0 0 0)
    by (rewrite ?length_map; lia).
  rewrite (nth_indep (map (masked_pos_ix D ix) row) 0%Z
                     (masked_pos_ix D ix 0))
    by (rewrite length_map; lia).
  rewrite (nth_indep (map (wts_ix D ix) row) 0 (wts_ix D ix 0))
    by (rewrite length_map; lia).
  rewrite !map_nth. reflexivity.
Qed.

(** *** One dimension *)

Lemma masked_pos_ix_range D ix c :
  (1 <= D)%Z -> (0 <= masked_pos_ix D ix c < D)%Z.
Proof.
  intros HD. unfold masked_pos_ix, safe_ix.
  destruct (0 <? pos_ix D ix c)%Z eqn:E1;
    destruct (pos_ix D ix c <? D)%Z eqn:E2; simpl;
    rewrite ?Z.ltb_lt in *; lia.
Qed.

(** A masked neighbour, the only one whose index is 0, has weight 0. *)
Lemma masked_pos_ix_zero D ix c :
  masked_pos_ix D ix c = 0%Z -> wts_ix D ix c == 0.
Proof.
  unfold masked_pos_ix, wts_ix, safe_ix.
  destruct (0 <? pos_ix D ix c)%Z eqn:E1;
    destruct (pos_ix D ix c <? D)%Z eqn:E2; simpl; intros H;
    try (unfold inject_Z; ring).
  apply Z.ltb_lt in E1. lia.
Qed.

(** The two weights of a point away from the boundary add up to 1. *)
Lemma wts_ix_pair D c :
  safe_ix D 0 c = true -> safe_ix D 1 c = true ->
  wts_ix D 0 c + wts_ix D 1 c == 1.
Proof.
  intros H0 H1. unfold wts_ix. rewrite H0, H1. unfold pos_ix. simpl mask.
  pose proof (Qfloor_le (pos D c)) as Hle.
  pose proof (Qlt_floor (pos D c)) as Hlt.
  rewrite Z.add_0_r. rewrite inject_Z_plus in *.
  set (x := pos D c) in *. set (fl := inject_Z (Qfloor x)) in *.
  rewrite (Qabs_pos (x - fl)) by (apply (Qplus_le_l _ _ fl); ring_simplify; exact Hle).
  rewrite (Qabs_neg (x - (fl + inject_Z 1)))
    by (apply (Qplus_le_l _ _ (fl + inject_Z 1)); ring_simplify;
        apply Qlt_le_weak; exact Hlt).
  change (inject_Z 1) with 1. ring.
Qed.

(** *** Flat index and combined weight of one point *)

Lemma point_index_range grid_dims : forall cs ix_d i w size,
  Forall (fun D => (1 <= D)%Z) grid_dims ->
  (0 <= i < size)%Z ->
  (0 <= fst (point_index_wts grid_dims cs ix_d i w)
   < size * shape_size grid_dims)%Z.
Proof.
  induction grid_dims as [|D dims IH]; intros cs ix_d i w size HD Hi.
  - simpl. lia.
  - inversion HD as [|? ? HD1 HD']; subst.
    assert (Hs : (1 <= shape_size dims)%Z).
    { clear -HD'. induction HD'; simpl; [lia|]. fold (shape_size l). nia. }
    change (shape_size (D :: dims)) with (D * shape_size dims)%Z.
    assert (HDs : (1 <= D * shape_size dims)%Z) by nia.
    assert (Hprod : (size <= size * (D * shape_size dims))%Z)
      by (rewrite <- (Z.mul_1_r size) at 1; apply Z.mul_le_mono_nonneg_l; lia).
    destruct cs as [|c cs]; [cbn [point_index_wts fst]; lia|].
    destruct ix_d as [|ix ix_d]; [cbn [point_index_wts fst]; lia|].
    cbn [point_index_wts].
    pose proof (masked_pos_ix_range D ix c HD1) as He.
    replace (size * (D * shape_size dims))%Z
      with ((size * D) * shape_size dims)%Z by ring.
    apply IH; auto. nia.
Qed.

Lemma point_index_zero_inv grid_dims : forall cs ix_d i w,
  Forall (fun D => (1 <= D)%Z) grid_dims ->
  (0 <= i)%Z -> (i = 0%Z -> w == 0) ->
  fst (point_index_wts grid_dims cs ix_d i w) = 0%Z ->
  snd (point_index_wts grid_dims cs ix_d i w) == 0.
Proof.
  induction grid_dims as [|D dims IH]; intros cs ix_d i w HD Hi Hw H.
  - simpl in *. auto.
  - inversion HD as [|? ? HD1 HD']; subst.
    destruct cs as [|c cs]; [simpl in *; auto|].
    destruct ix_d as [|ix ix_d]; [simpl in *; auto|].
    cbn [point_index_wts] in *.
    pose proof (masked_pos_ix_range D ix c HD1) as He.
    apply IH in H; auto.
    + nia.
    + intros Hz. assert (i = 0%Z) by nia. rewrite (Hw H0). ring.
Qed.

(** A combination whose flat index is 0 gives the point weight 0. *)
Lemma point_index_zero grid_dims cs ix_d :
  grid_dims <> [] -> length cs = length grid_dims ->
  length ix_d = length grid_dims ->
  Forall (fun D => (1 <= D)%Z) grid_dims ->
  fst (point_index_wts grid_dims cs ix_d 0 1) = 0%Z ->
  snd (point_index_wts grid_dims cs ix_d 0 1) == 0.
Proof.
  intros Hne Hcs Hix HD.
  destruct grid_dims as [|D dims]; [congruence|].
  destruct cs as [|c cs]; [discriminate|].
  destruct ix_d as [|ix ix_d]; [discriminate|].
  inversion HD as [|? ? HD1 HD']; subst.
  cbn [point_index_wts]. simpl (0 * D + _)%Z.
  pose proof (masked_pos_ix_range D ix c HD1) as He.
  apply point_index_zero_inv; auto.
  - lia.
  - intros Hz. rewrite (masked_pos_ix_zero D ix c Hz). ring.
Qed.

(** *** The combinations *)

Lemma product01_length n : length (product01 n) = (2 ^ n)%nat.
Proof.
  induction n as [|n IH]; [reflexivity|].
  cbn [product01]. rewrite length_app, !length_map, IH. simpl. lia.
Qed.

Lemma product01_spec n :
  Forall (fun ix_d => binary ix_d /\ length ix_d = n) (product01 n).
Proof.
  induction n as [|n IH].
  - repeat constructor.
  - cbn [product01]. apply Forall_app. split; apply Forall_map;
      (eapply Forall_impl; [|exact IH]); intros c [Hb Hl]; split;
      try (constructor; auto); simpl; congruence.
Qed.

Lemma product01_cons n : exists ix_d rest, product01 n = ix_d :: rest.
Proof.
  induction n as [|n (c & rest & IH)].
  - eexists _, _. reflexivity.
  - cbn [product01]. rewrite IH. simpl. eexists _, _. reflexivity.
Qed.

(** *** Sums of weights *)

Lemma Qsum_app l m : Qsum (l ++ m) == Qsum l + Qsum m.
Proof.
  induction l as [|a l IH]; simpl.
  - ring.
  - fold (Qsum (l ++ m)). fold (Qsum l). rewrite IH. ring.
Qed.

Lemma point_wts_sum grid_dims : forall cs i w,
  Forall2 (fun D c => safe_ix D 0 c = true /\ safe_ix D 1 c = true)
          grid_dims cs ->
  Qsum (map (fun ix_d => snd (point_index_wts grid_dims cs ix_d i w))
            (product01 (length grid_dims))) == w.
Proof.
  induction grid_dims as [|D dims IH]; intros cs i w H.
  - simpl. ring.
  - inversion H as [|? c ? cs' [H0 H1] H']; subst.
    cbn [length product01]. rewrite map_app, !map_map, Qsum_app.
    cbn [point_index_wts].
    rewrite !IH by assumption.
    setoid_replace (w * wts_ix D 0 c + w * wts_ix D 1 c)
      with (w * (wts_ix D 0 c + wts_ix D 1 c)) by ring.
    rewrite (wts_ix_pair D c H0 H1). ring.
Qed.

Lemma interior_column grid_dims coords_b p :
  interior grid_dims coords_b p ->
  Forall2 (fun D c => safe_ix D 0 c = true /\ safe_ix D 1 c = true)
          grid_dims (column coords_b p).
Proof.
  unfold interior. induction 1; simpl; constructor; auto.
Qed.

Lemma nth_map_const {A B} (a d : A) (l : list B) p :
  (p < length l)%nat -> nth p (map (fun _ => a) l) d = a.
Proof.
  revert p; induction l as [|b l IH]; intros [|p] H; simpl in *;
    try lia; auto.
  apply IH. lia.
Qed.

(** Index and weight rows of a combination, read at point [p]. *)
Lemma like_length (grid_dims : list Z) coords_b nPt :
  grid_dims <> [] -> length coords_b = length grid_dims ->
  Forall (fun row => length row = nPt) coords_b ->
  length (zeros_like coords_b) = nPt /\ length (ones_like coords_b) = nPt.
Proof.
  intros Hne Hlen Hrows. unfold zeros_like, ones_like. rewrite !length_map.
  destruct coords_b as [|row rows].
  - destruct grid_dims; [congruence | discriminate].
  - inversion Hrows; auto.
Qed.

Lemma rows_length grid_dims coords_b ix_d nPt :
  grid_dims <> [] -> length coords_b = length grid_dims ->
  Forall (fun row => length row = nPt) coords_b ->
  binary ix_d ->
  length (index_row grid_dims coords_b ix_d) = nPt
  /\ length (wts_row grid_dims coords_b ix_d) = nPt.
Proof.
  intros Hne Hlen Hrows Hb.
  destruct (like_length grid_dims coords_b nPt Hne Hlen Hrows) as [Hz Ho].
  apply (index_wts_length grid_dims coords_b ix_d _ _ nPt Hb Hrows Hz Ho).
Qed.

Lemma flat_index_combined_weight grid_dims coords_b ix_d nPt p :
  grid_dims <> [] -> length coords_b = length grid_dims ->
  Forall (fun row => length row = nPt) coords_b ->
  binary ix_d -> (p < nPt)%nat ->
  (flat_index grid_dims coords_b ix_d p,
   combined_weight grid_dims coords_b ix_d p)
  = point_index_wts grid_dims (column coords_b p) ix_d 0 1.
Proof.
  intros Hne Hlen Hrows Hb Hp.
  destruct (like_length grid_dims coords_b nPt Hne Hlen Hrows) as [Hz Ho].
  unfold flat_index, combined_weight, index_row, wts_row.
  rewrite (index_wts_nth grid_dims coords_b ix_d _ _ nPt p Hb Hrows Hz Ho Hp).
  unfold zeros_like, ones_like in *. rewrite length_map in Hz.
  rewrite (nth_map_const 0%Z), (nth_map_const 1) by lia. reflexivity.
Qed.

(** *** One iteration on a single batch element *)

Lemma zip_with_map_r {A B B' C} (g : A -> B -> C) (h : B' -> B) l m :
  zip_with g l (map h m) = zip_with (fun a b => g a (h b)) l m.
Proof.
  revert m; induction l as [|a l IH]; intros [|b m]; simpl; auto.
  now rewrite IH.
Qed.

Lemma map_zip_with {A B C C'} (k : C -> C') (g : A -> B -> C) l m :
  map k (zip_with g l m) = zip_with (fun a b => k (g a b)) l m.
Proof.
  revert m; induction l as [|a l IH]; intros [|b m]; simpl; auto.
  now rewrite IH.
Qed.

Lemma match_nonempty {A B} (l : list A) (a b : B) :
  l <> [] -> match l with [] => a | _ :: _ => b end = b.
Proof. destruct l; [congruence | reflexivity]. Qed.

Section SingleElement.

Variable quantize : Q -> Q.
Variables (grid_dims : list Z) (feat_b coords_b : list (list Q)).
Variables (F nPt : nat).

Hypothesis shaped : element_shaped F nPt grid_dims feat_b coords_b.

Ltac shapes :=
  pose proof shaped as [Hne Hpos Hrows Hcols Hfeat Hfcols].

Lemma index_row_length ix_d :
  binary ix_d -> length (index_row grid_dims coords_b ix_d) = nPt.
Proof. intros Hb. shapes. now apply rows_length. Qed.

Lemma wts_row_length ix_d :
  binary ix_d -> length (wts_row grid_dims coords_b ix_d) = nPt.
Proof. intros Hb. shapes. now apply rows_length. Qed.

Lemma index_row_nth ix_d p :
  binary ix_d -> (p < nPt)%nat ->
  nth p (index_row grid_dims coords_b ix_d) 0%Z
  = fst (point_index_wts grid_dims (column coords_b p) ix_d 0 1).
Proof.
  intros Hb Hp. shapes.
  rewrite <- (flat_index_combined_weight grid_dims coords_b ix_d nPt p);
    auto.
Qed.

Lemma wts_row_nth ix_d p :
  binary ix_d -> (p < nPt)%nat ->
  nth p (wts_row grid_dims coords_b ix_d) 0
  = snd (point_index_wts grid_dims (column coords_b p) ix_d 0 1).
Proof.
  intros Hb Hp. shapes.
  rewrite <- (flat_index_combined_weight grid_dims coords_b ix_d nPt p);
    auto.
Qed.

Lemma index_row_range ix_d p :
  binary ix_d -> (p < nPt)%nat ->
  (0 <= nth p (index_row grid_dims coords_b ix_d) 0 < shape_size grid_dims)%Z.
Proof.
  intros Hb Hp. shapes. rewrite index_row_nth by assumption.
  pose proof (point_index_range grid_dims (column coords_b p) ix_d 0 1 1
                Hpos) as H.
  rewrite Z.mul_1_l in H. apply H. lia.
Qed.

(** The scatter never leaves the grid. *)
Lemma index_row_in_bounds ix_d :
  binary ix_d ->
  in_bounds (shape_size grid_dims) (index_row grid_dims coords_b ix_d) = true.
Proof.
  intros Hb. unfold in_bounds. apply forallb_forall. intros i Hi.
  destruct (In_nth _ _ 0%Z Hi) as (p & Hp & <-).
  rewrite index_row_length in Hp by assumption.
  pose proof (index_row_range ix_d p Hb Hp).
  apply andb_true_iff. rewrite Z.leb_le, Z.ltb_lt. lia.
Qed.

Lemma pass_single ix_d g_b :
  binary ix_d ->
  pass quantize grid_dims [feat_b] [coords_b] ix_d [g_b]
  = Ok [step quantize grid_dims feat_b coords_b g_b ix_d].
Proof.
  intros Hb. shapes. unfold pass.
  rewrite match_nonempty by exact Hne.
  cbn [map zip_with].
  fold (index_row grid_dims coords_b ix_d).
  fold (wts_row grid_dims coords_b ix_d).
  rewrite index_row_in_bounds by assumption.
  unfold map_tensor, step. cbn [map].
  rewrite zip_with_map_r, map_zip_with. reflexivity.
Qed.

Lemma passes_single combos : forall g_b,
  Forall binary combos ->
  passes quantize grid_dims [feat_b] [coords_b] combos [g_b]
  = Ok [fold_left (step quantize grid_dims feat_b coords_b) combos g_b].
Proof.
  induction combos as [|ix_d rest IH]; intros g_b Hc; [reflexivity|].
  inversion Hc as [|? ? Hb Hrest]; subst.
  cbn [passes fold_left]. rewrite pass_single by assumption.
  unfold bind. apply IH. assumption.
Qed.

Lemma step_length g_b ix_d :
  length g_b = F ->
  length (step quantize grid_dims feat_b coords_b g_b ix_d) = F.
Proof.
  intros Hg. shapes. unfold step. rewrite zip_with_length; congruence.
Qed.

Lemma step_nth g_b ix_d f :
  length g_b = F -> (f < F)%nat ->
  nth f (step quantize grid_dims feat_b coords_b g_b ix_d) []
  = pass_row quantize (index_row grid_dims coords_b ix_d)
             (wts_row grid_dims coords_b ix_d)
             (nth f g_b []) (nth f feat_b []).
Proof.
  intros Hg Hf. shapes. unfold step.
  apply (zip_with_nth _ g_b feat_b f [] [] []); congruence.
Qed.

Lemma pass_row_length index w row feat_row :
  length (pass_row quantize index w row feat_row) = length row.
Proof.
  unfold pass_row, iadd_at. rewrite length_map. apply setitem_length.
Qed.

Lemma step_row_lengths g_b ix_d n :
  length g_b = F ->
  Forall (fun row => length row = n) g_b ->
  Forall (fun row => length row = n)
         (step quantize grid_dims feat_b coords_b g_b ix_d).
Proof.
  intros Hg Hr. apply Forall_forall. intros row Hin.
  destruct (In_nth _ _ [] Hin) as (f & Hf & <-).
  rewrite step_length in Hf by assumption.
  rewrite step_nth, pass_row_length by assumption.
  rewrite Forall_forall in Hr. apply Hr. apply nth_In. lia.
Qed.

Lemma fold_step_shape n combos : forall g_b,
  length g_b = F ->
  Forall (fun row => length row = n) g_b ->
  length (fold_left (step quantize grid_dims feat_b coords_b) combos g_b) = F
  /\ Forall (fun row => length row = n)
            (fold_left (step quantize grid_dims feat_b coords_b) combos g_b).
Proof.
  induction combos as [|c rest IH]; intros g_b Hg Hr; [auto|].
  cbn [fold_left]. apply IH.
  - now apply step_length.
  - now apply step_row_lengths.
Qed.

Lemma feat_row_length f : (f < F)%nat -> length (nth f feat_b []) = nPt.
Proof.
  intros Hf. shapes. rewrite Forall_forall in Hfcols. apply Hfcols.
  apply nth_In. lia.
Qed.

(** The updates aimed at cell 0 are all zero. *)
Lemma updates_at_cell0 ix_d feat_row p :
  binary ix_d -> length ix_d = length grid_dims ->
  length feat_row = nPt -> (p < nPt)%nat ->
  (0 <= nth p (index_row grid_dims coords_b ix_d) 0)%Z
  /\ (nth p (index_row grid_dims coords_b ix_d) 0%Z = 0%Z ->
      nth p (zip_with Qmult feat_row (wts_row grid_dims coords_b ix_d)) 0
      == 0).
Proof.
  intros Hb Hl Hfr Hp. shapes. split.
  - apply index_row_range; assumption.
  - intros Hz.
    rewrite (zip_with_nth Qmult _ _ p 0 0 0)
      by (rewrite ?wts_row_length by assumption; lia).
    rewrite wts_row_nth by assumption.
    rewrite index_row_nth in Hz by assumption.
    rewrite (point_index_zero grid_dims (column coords_b p) ix_d); auto.
    + ring.
    + unfold column. rewrite length_map. exact Hrows.
Qed.

End SingleElement.

Lemma nth_map_fixed {A} (g : A -> A) (d : A) l p :
  g d = d -> nth p (map g l) d = g (nth p l d).
Proof. intros H. rewrite <- H at 1. apply map_nth. Qed.

End SplatterFacts.


(** *** The whole call on a batch of one element *)

Section SplatterCalls.

Import Splatter.
Local Open Scope Q_scope.

Lemma well_shaped_single F nPt grid_dims init_grid feat coords :
  well_shaped 1 F nPt grid_dims init_grid feat coords ->
  exists g_b feat_b coords_b,
    init_grid = [g_b] /\ feat = [feat_b] /\ coords = [coords_b]
    /\ length g_b = F
    /\ Forall (fun row => length row = Z.to_nat (shape_size grid_dims)) g_b
    /\ element_shaped F nPt grid_dims feat_b coords_b.
Proof.
  intros [[Hne Hpos] [Hg1 Hg2] [Hf1 Hf2] [Hc1 Hc2]].
  destruct init_grid as [|g_b [|? ?]]; try discriminate.
  destruct feat as [|feat_b [|? ?]]; try discriminate.
  destruct coords as [|coords_b [|? ?]]; try discriminate.
  inversion Hg2 as [|? ? [? ?] _]; inversion Hf2 as [|? ? [? ?] _];
    inversion Hc2 as [|? ? [? ?] _]; subst.
  exists g_b, feat_b, coords_b. repeat split; auto.
Qed.

Lemma splat_with_single quantize F nPt grid_dims feat_b coords_b g_b :
  element_shaped F nPt grid_dims feat_b coords_b ->
  splat_with quantize grid_dims [feat_b] [coords_b] [g_b]
  = Ok [fold_left (step quantize grid_dims feat_b coords_b)
                  (product01 (length grid_dims)) g_b].
Proof.
  intros Hes. unfold splat_with.
  apply (passes_single quantize grid_dims feat_b coords_b F nPt Hes).
  eapply Forall_impl; [|apply product01_spec]. intros c [Hb _]. exact Hb.
Qed.

(** A batch of one element is scattered and a grid of the same shape comes
    back. *)
Lemma splat_feat_nd_returns F nPt grid_dims init_grid feat coords :
  well_shaped 1 F nPt grid_dims init_grid feat coords ->
  exists g,
    splat_feat_nd grid_dims init_grid feat coords = Ok g
    /\ has_shape 1 F (Z.to_nat (shape_size grid_dims)) g.
Proof.
  intros Hws.
  destruct (well_shaped_single _ _ _ _ _ _ Hws)
    as (g_b & feat_b & coords_b & -> & -> & -> & Hg & Hgr & Hes).
  unfold splat_feat_nd.
  rewrite (splat_with_single _ F nPt) by assumption.
  eexists. split; [reflexivity|].
  destruct (fold_step_shape ops_round grid_dims feat_b coords_b F nPt Hes
              (Z.to_nat (shape_size grid_dims))
              (product01 (length grid_dims)) g_b Hg Hgr) as [H1 H2].
  split; [reflexivity|]. constructor; [|constructor]. split; assumption.
Qed.

(** With more than one batch element the first iteration stops at the
    assertion. *)
Lemma splat_feat_nd_asserts B F nPt grid_dims init_grid feat coords :
  well_shaped B F nPt grid_dims init_grid feat coords ->
  (1 < B)%nat ->
  splat_feat_nd grid_dims init_grid feat coords = Raise AssertionError.
Proof.
  intros Hws HB. pose proof (ws_dims _ _ _ _ _ _ _ Hws) as [Hne _].
  destruct (ws_coords _ _ _ _ _ _ _ Hws) as [Hc _].
  unfold splat_feat_nd, splat_with.
  destruct (product01_cons (length grid_dims)) as (c & rest & ->).
  cbn [passes]. unfold pass.
  rewrite match_nonempty by exact Hne.
  destruct coords as [|c1 [|c2 cs]]; simpl in Hc; try lia.
  reflexivity.
Qed.

(** Whatever an iteration returns has been rounded, cell by cell. *)
Lemma pass_rounded quantize grid_dims feat coords ix_d g g' :
  pass quantize grid_dims feat coords ix_d g = Ok g' ->
  exists raw, g' = map_tensor quantize raw.
Proof.
  unfold pass. destruct grid_dims as [|D dims]; [discriminate|].
  destruct (map fst _) as [|index0 [|? ?]]; try discriminate.
  destruct (in_bounds _ _); [|discriminate].
  intros [= <-]. eexists. reflexivity.
Qed.

Lemma passes_rounded quantize grid_dims feat coords combos :
  forall g g',
    combos <> [] ->
    passes quantize grid_dims feat coords combos g = Ok g' ->
    exists raw, g' = map_tensor quantize raw.
Proof.
  induction combos as [|c rest IH]; intros g g' Hne H; [congruence|].
  cbn [passes] in H.
  destruct (pass quantize grid_dims feat coords c g) as [g1|e] eqn:E;
    [|discriminate].
  unfold bind in H. destruct rest as [|c' rest'].
  - cbn [passes] in H. injection H as <-. eapply pass_rounded; eauto.
  - eapply IH; eauto. discriminate.
Qed.

Lemma map_tensor_integers raw :
  Forall (Forall (Forall is_integer)) (map_tensor ops_round raw).
Proof.
  unfold map_tensor.
  apply Forall_map, Forall_forall. intros t_b _.
  apply Forall_map, Forall_forall. intros row _.
  apply Forall_map, Forall_forall. intros q _.
  apply ops_round_is_integer.
Qed.

(** One iteration changes cell 0 of a feature row by the rounding alone. *)
Lemma step_cell0 F nPt grid_dims feat_b coords_b g_b ix_d f :
  element_shaped F nPt grid_dims feat_b coords_b ->
  binary ix_d -> length ix_d = length grid_dims ->
  length g_b = F -> (f < F)%nat ->
  nth 0 (nth f (step ops_round grid_dims feat_b coords_b g_b ix_d) []) 0
  = ops_round (nth 0 (nth f g_b []) 0).
Proof.
  intros Hes Hb Hl Hg Hf.
  rewrite (step_nth ops_round grid_dims feat_b coords_b F nPt Hes)
    by assumption.
  unfold pass_row. rewrite nth_map_fixed by reflexivity.
  apply ops_round_comp.
  pose proof (index_row_length grid_dims feat_b coords_b F nPt Hes ix_d Hb)
    as Hi.
  pose proof (wts_row_length grid_dims feat_b coords_b F nPt Hes ix_d Hb)
    as Hw.
  pose proof (feat_row_length grid_dims feat_b coords_b F nPt Hes f Hf)
    as Hfr.
  apply iadd_at_cell0.
  - rewrite zip_with_length; congruence.
  - intros p Hp. rewrite Hi in Hp.
    apply (updates_at_cell0 grid_dims feat_b coords_b F nPt Hes); auto.
Qed.

(** So do all the iterations together. *)
Lemma fold_step_cell0 F nPt grid_dims feat_b coords_b :
  element_shaped F nPt grid_dims feat_b coords_b ->
  forall combos g_b f,
    Forall (fun ix_d => binary ix_d /\ length ix_d = length grid_dims) combos ->
    combos <> [] ->
    length g_b = F -> (f < F)%nat ->
    nth 0 (nth f (fold_left (step ops_round grid_dims feat_b coords_b)
                            combos g_b) []) 0
    = ops_round (nth 0 (nth f g_b []) 0).
Proof.
  intros Hes.
  induction combos as [|c rest IH]; intros g_b f Hc Hnil Hg Hlt; [congruence|].
  apply Forall_cons_iff in Hc. destruct Hc as [[Hb Hl] Hrest].
  cbn [fold_left]. destruct rest as [|c' rest'].
  - cbn [fold_left]. apply (step_cell0 F nPt); assumption.
  - rewrite IH; auto; try discriminate.
    + rewrite (step_cell0 F nPt) by assumption.
      apply ops_round_idempotent.
    + apply (step_length ops_round grid_dims feat_b coords_b F nPt Hes).
      assumption.
Qed.

(** A zero weight stays zero through the remaining dimensions. *)
Lemma point_wts_zero grid_dims : forall cs ix_d i w,
  w == 0 -> snd (point_index_wts grid_dims cs ix_d i w) == 0.
Proof.
  induction grid_dims as [|D dims IH]; intros cs ix_d i w Hw; [exact Hw|].
  destruct cs as [|c cs]; [exact Hw|].
  destruct ix_d as [|ix ix_d]; [exact Hw|].
  cbn [point_index_wts]. apply IH. rewrite Hw. ring.
Qed.

(** A neighbour that fails the safety mask along one dimension, whichever,
    leaves the combination without weight. *)
Lemma point_wts_masked grid_dims : forall cs ix_d i w d,
  length cs = length grid_dims -> length ix_d = length grid_dims ->
  (d < length grid_dims)%nat ->
  safe_ix (nth d grid_dims 0%Z) (nth d ix_d 0%Z) (nth d cs 0) = false ->
  snd (point_index_wts grid_dims cs ix_d i w) == 0.
Proof.
  induction grid_dims as [|D dims IH]; intros cs ix_d i w d Hcs Hix Hd Hs;
    [simpl in Hd; lia|].
  destruct cs as [|c cs]; [discriminate|].
  destruct ix_d as [|ix ix_d]; [discriminate|].
  cbn [point_index_wts]. destruct d as [|d].
  - cbn [nth] in Hs. apply point_wts_zero.
    unfold wts_ix. rewrite Hs. cbn [mask]. ring.
  - cbn [nth] in Hs. simpl in Hcs, Hix, Hd.
    apply (IH cs ix_d _ _ d); auto; lia.
Qed.

(** The mask fails exactly for a neighbour index that is 0 or below, or at
    or beyond the size of the dimension. *)
Lemma safe_ix_false D ix c :
  safe_ix D ix c = false <-> (pos_ix D ix c <= 0 \/ D <= pos_ix D ix c)%Z.
Proof.
  unfold safe_ix. rewrite andb_false_iff, !Z.ltb_ge. reflexivity.
Qed.

(** [round_half_even] is within one half of its argument. *)
Lemma round_half_even_near (q : Q) :
  inject_Z (round_half_even q) - (1 # 2) <= q
  /\ q <= inject_Z (round_half_even q) + (1 # 2).
Proof.
  unfold round_half_even.
  pose proof (Qfloor_le q) as Hle.
  pose proof (Qlt_floor q) as Hlt.
  rewrite inject_Z_plus in Hlt. change (inject_Z 1) with 1 in Hlt.
  destruct (q - inject_Z (Qfloor q) ?= 1 # 2) eqn:E.
  - apply Qeq_alt in E.
    destruct (Z.even (Qfloor q)); rewrite ?inject_Z_plus;
      change (inject_Z 1) with 1; lra.
  - apply Qlt_alt in E. lra.
  - apply Qgt_alt in E. rewrite inject_Z_plus. change (inject_Z 1) with 1.
    lra.
Qed.

Lemma ops_round_near (q : Q) : Qabs (ops_round q - q) <= 1 # 2.
Proof.
  unfold ops_round. destruct (round_half_even_near q) as [Hlo Hhi].
  apply Qabs_Qle_condition. split; lra.
Qed.

(** An iteration is the accumulation followed by the rounding of every cell
    of every row. *)
Lemma step_rounds grid_dims feat_b coords_b g_b ix_d :
  step ops_round grid_dims feat_b coords_b g_b ix_d
  = map (map ops_round)
        (step (fun q => q) grid_dims feat_b coords_b g_b ix_d).
Proof.
  unfold step, pass_row.
  generalize (index_row grid_dims coords_b ix_d) as idx.
  generalize (wts_row grid_dims coords_b ix_d) as w. intros w idx.
  revert feat_b. induction g_b as [|row g IH]; intros [|fr feat_b];
    try reflexivity.
  cbn [zip_with map]. rewrite map_id, IH. reflexivity.
Qed.

Lemma fold_left_ext {A B} (g h : A -> B -> A) (l : list B) :
  (forall a b, g a b = h a b) ->
  forall a, fold_left g l a = fold_left h l a.
Proof.
  intros E. induction l as [|b l IH]; intros a; [reflexivity|].
  cbn [fold_left]. rewrite E. apply IH.
Qed.

End SplatterCalls.


(** *** The claims on the splatter *)

Section SplatterClaims.

Import Splatter.
Local Open Scope Q_scope.

(** Two writes to one cell through [row[idx] += upd]: both read the old
    value and the second one stays. *)
Lemma iadd_at_same_cell row (i : nat) u v :
  (i < length row)%nat ->
  nth i (iadd_at row [Z.of_nat i; Z.of_nat i] [u; v]) 0 = nth i row 0 + v.
Proof.
  intros Hi. unfold iadd_at. cbn [getitem map zip_with setitem].
  rewrite Nat2Z.id, !nth_set_nth, set_nth_length, Nat.eqb_refl.
  replace (i <? length row)%nat with true
    by (symmetry; apply Nat.ltb_lt; exact Hi).
  reflexivity.
Qed.

(** C2: contributions of one iteration that target the same cell do not
    add up.  Two points at the centre of a 1-d grid of 4 cells, each with
    feature 3, both target cell 2 with weight 1 in the first combination;
    the cell ends at 3, as with a single point, not at 6. *)
Theorem splat_same_cell_overwrites :
  let grid_dims := [4%Z] in
  let init_grid := [[[0; 0; 0; 0]]] in
  flat_index grid_dims [[0; 0]] [0%Z] 0 = 2%Z
  /\ flat_index grid_dims [[0; 0]] [0%Z] 1 = 2%Z
  /\ combined_weight grid_dims [[0; 0]] [0%Z] 0 == 1
  /\ combined_weight grid_dims [[0; 0]] [0%Z] 1 == 1
  /\ splat_feat_nd grid_dims init_grid [[[3; 3]]] [[[0; 0]]]
     = Ok [[[0; 0; 3; 0]]]
  /\ splat_feat_nd grid_dims init_grid [[[3]]] [[[0]]]
     = Ok [[[0; 0; 3; 0]]].
Proof. vm_compute. repeat split. Qed.

(** C3, as stated, fails: cell 0 is rounded with the rest of the grid, so an
    initial value that is not an integer is not kept. *)
Lemma cell0_is_rounded :
  let init_grid := [[[1 # 2; 0; 0; 0]]] in
  exists g,
    splat_feat_nd [4%Z] init_grid [[[3]]] [[[- (1)]]] = Ok g
    /\ cell g 0 0 0 = 0
    /\ ~ cell g 0 0 0 == cell init_grid 0 0 0.
Proof.
  eexists. split; [vm_compute; reflexivity|]. split; [reflexivity|].
  vm_compute. discriminate.
Qed.

(** C3, amended: on a batch of one element, a combination whose neighbour
    index for a point fails the safety mask along any one dimension (the
    index is 0 or below, or at or beyond the size of the dimension) gives
    that point weight 0, and so does a combination whose flat index for the
    point is 0; cell 0 of every feature row of the returned grid is the
    rounding of its value in [init_grid], and equals that value whenever the
    value is an integer. *)
Theorem cell0_only_rounded F nPt grid_dims init_grid feat coords :
  well_shaped 1 F nPt grid_dims init_grid feat coords ->
  (forall ix_d p d,
      In ix_d (product01 (length grid_dims)) -> (p < nPt)%nat ->
      (d < length grid_dims)%nat ->
      let D := nth d grid_dims 0%Z in
      let i := pos_ix D (nth d ix_d 0%Z)
                      (nth p (nth d (nth 0 coords []) []) 0) in
      (i <= 0 \/ D <= i)%Z ->
      combined_weight grid_dims (nth 0 coords []) ix_d p == 0)
  /\ (forall ix_d p,
      In ix_d (product01 (length grid_dims)) -> (p < nPt)%nat ->
      flat_index grid_dims (nth 0 coords []) ix_d p = 0%Z ->
      combined_weight grid_dims (nth 0 coords []) ix_d p == 0)
  /\ exists g,
      splat_feat_nd grid_dims init_grid feat coords = Ok g
      /\ forall f, (f < F)%nat ->
           cell g 0 f 0 = ops_round (cell init_grid 0 f 0)
           /\ (is_integer (cell init_grid 0 f 0) ->
               cell g 0 f 0 = cell init_grid 0 f 0).
Proof.
  intros Hws.
  destruct (well_shaped_single _ _ _ _ _ _ Hws)
    as (g_b & feat_b & coords_b & -> & -> & -> & Hg & Hgr & Hes).
  pose proof Hes as [Hne Hpos Hrows Hcols _ _].
  pose proof (product01_spec (length grid_dims)) as Hspec.
  rewrite Forall_forall in Hspec.
  split; [|split].
  { intros ix_d p d Hin Hp Hd D i Hi. subst D i. cbn [nth] in Hi |- *.
    destruct (Hspec ix_d Hin) as [Hb Hl].
    pose proof (flat_index_combined_weight grid_dims coords_b ix_d nPt p
                  Hne Hrows Hcols Hb Hp) as E.
    apply (f_equal snd) in E. cbn [snd] in E. rewrite E.
    apply (point_wts_masked grid_dims _ _ _ _ d); auto.
    - unfold column. rewrite length_map. exact Hrows.
    - apply safe_ix_false.
      replace (nth d (column coords_b p) 0)
        with (nth p (nth d coords_b []) 0); [exact Hi|].
      unfold column.
      transitivity (nth d (map (fun row => nth p row 0) coords_b)
                        (nth p [] 0)).
      + symmetry.
        exact (map_nth (fun row => nth p row 0) coords_b [] d).
      + apply nth_indep. rewrite length_map. lia. }
  { intros ix_d p Hin Hp. cbn [nth].
    destruct (Hspec ix_d Hin) as [Hb Hl].
    pose proof (flat_index_combined_weight grid_dims coords_b ix_d nPt p
                  Hne Hrows Hcols Hb Hp) as E.
    apply (f_equal fst) in E as E1. apply (f_equal snd) in E as E2.
    cbn [fst snd] in E1, E2. rewrite E1, E2.
    apply point_index_zero; auto.
    unfold column. rewrite length_map. exact Hrows. }
  unfold splat_feat_nd.
  rewrite (splat_with_single _ F nPt) by assumption.
  eexists. split; [reflexivity|].
  intros f Hf. unfold cell. cbn [nth].
  assert (E : nth 0 (nth f (fold_left (step ops_round grid_dims feat_b coords_b)
                                      (product01 (length grid_dims)) g_b) []) 0
              = ops_round (nth 0 (nth f g_b []) 0)).
  { apply (fold_step_cell0 F nPt); auto.
    - apply product01_spec.
    - destruct (product01_cons (length grid_dims)) as (c & rest & ->).
      discriminate. }
  split; [exact E|].
  intros Hint. rewrite E. symmetry. exact Hint.
Qed.

Lemma cell0_only_rounded_witness :
  combined_weight [4%Z; 4%Z] [[- (1)]; [0]] [0%Z; 1%Z] 0 == 0
  /\ exists g,
    splat_feat_nd [4%Z; 4%Z]
                  [[[7; 0; 0; 0; 0; 0; 0; 0; 0; 0; 0; 0; 0; 0; 0; 0]]]
                  [[[3]]] [[[- (1)]; [0]]] = Ok g
    /\ cell g 0 0 0 = 7.
Proof.
  destruct (cell0_only_rounded 1 1 [4%Z; 4%Z]
              [[[7; 0; 0; 0; 0; 0; 0; 0; 0; 0; 0; 0; 0; 0; 0; 0]]]
              [[[3]]] [[[- (1)]; [0]]]) as (Hany & _ & g & Hg & Hcell).
  - constructor.
    + split; [discriminate | repeat constructor; discriminate].
    + split; [reflexivity | repeat constructor].
    + split; [reflexivity | repeat constructor].
    + split; [reflexivity | repeat constructor].
  - split.
    + apply (Hany [0%Z; 1%Z] 0%nat 0%nat).
      * simpl. auto.
      * lia.
      * simpl. lia.
      * left. vm_compute. discriminate.
    + exists g. split; [exact Hg|].
      destruct (Hcell 0%nat) as [_ Hint]; [lia|].
      apply Hint. reflexivity.
Defined.

(** C7: on a batch of one element, [splat_feat_nd] runs one iteration per
    neighbour combination, [2 ^ n_dims] of them; every iteration first
    accumulates and then rounds every cell of the whole grid to a nearest
    integer, so every value of the returned grid is an integer; and the
    roundings compound: there are inputs on which the returned grid differs
    from what one rounding after the last accumulation would give. *)
Theorem splat_rounds_every_iteration F nPt grid_dims g_b feat_b coords_b :
  well_shaped 1 F nPt grid_dims [g_b] [feat_b] [coords_b] ->
  let accumulate := step (fun q => q) grid_dims feat_b coords_b in
  let iteration g ix_d := map (map ops_round) (accumulate g ix_d) in
  let combinations := product01 (length grid_dims) in
  splat_feat_nd grid_dims [g_b] [feat_b] [coords_b]
  = Ok [fold_left iteration combinations g_b]
  /\ length combinations = (2 ^ length grid_dims)%nat
  /\ Forall (Forall is_integer) (fold_left iteration combinations g_b)
  /\ (forall q, Qabs (ops_round q - q) <= 1 # 2)
  /\ exists init_grid feat coords g g',
      well_shaped 1 1 2 [4%Z] init_grid feat coords
      /\ splat_feat_nd [4%Z] init_grid feat coords = Ok g
      /\ splat_round_at_end [4%Z] init_grid feat coords = Ok g'
      /\ ~ cell g 0 0 2 == cell g' 0 0 2.
Proof.
  intros Hws accumulate iteration combinations.
  destruct (well_shaped_single _ _ _ _ _ _ Hws)
    as (g0 & f0 & c0 & [= <-] & [= <-] & [= <-] & Hg & Hgr & Hes).
  assert (E : splat_feat_nd grid_dims [g_b] [feat_b] [coords_b]
              = Ok [fold_left iteration combinations g_b]).
  { unfold splat_feat_nd.
    rewrite (splat_with_single _ F nPt) by assumption.
    do 2 f_equal. apply fold_left_ext. intros g ix_d. apply step_rounds. }
  split; [exact E|].
  split; [apply product01_length|].
  split.
  { unfold splat_feat_nd, splat_with in E.
    apply passes_rounded in E.
    - destruct E as [raw Hraw].
      pose proof (map_tensor_integers raw) as Hint.
      rewrite <- Hraw in Hint. inversion Hint; assumption.
    - destruct (product01_cons (length grid_dims)) as (c & rest & ->).
      discriminate. }
  split; [apply ops_round_near|].
  exists [[[0; 0; 0; 0]]], [[[1; 1]]], [[[1 # 4; - (1 # 4)]]],
         [[[0; 0; 0; 0]]], [[[0; 0; 1; 0]]].
  split.
  { constructor.
    + split; [discriminate | repeat constructor; discriminate].
    + split; [reflexivity | repeat constructor].
    + split; [reflexivity | repeat constructor].
    + split; [reflexivity | repeat constructor]. }
  split; [vm_compute; reflexivity|].
  split; [vm_compute; reflexivity|].
  vm_compute. discriminate.
Qed.

Lemma splat_rounds_every_iteration_witness :
  splat_feat_nd [4%Z] [[[1 # 2; 0; 0; 0]]] [[[1; 1]]]
                [[[1 # 4; - (1 # 4)]]]
  = Ok [[[0; 0; 0; 0]]].
Proof.
  destruct (splat_rounds_every_iteration 1 2
              [4%Z] [[1 # 2; 0; 0; 0]] [[1; 1]] [[1 # 4; - (1 # 4)]])
    as (Hret & _).
  - constructor.
    + split; [discriminate | repeat constructor; discriminate].
    + split; [reflexivity | repeat constructor].
    + split; [reflexivity | repeat constructor].
    + split; [reflexivity | repeat constructor].
  - rewrite Hret. vm_compute. reflexivity.
Defined.

(** The rounding of every iteration compounds: two points, each giving one
    half to cell 2 in different iterations, leave it at 0, whereas a single
    rounding at the end would leave it at 1. *)
Lemma rounding_compounds :
  let init_grid := [[[0; 0; 0; 0]]] in
  let feat := [[[1; 1]]] in
  let coords := [[[1 # 4; - (1 # 4)]]] in
  splat_feat_nd [4%Z] init_grid feat coords = Ok [[[0; 0; 0; 0]]]
  /\ splat_round_at_end [4%Z] init_grid feat coords = Ok [[[0; 0; 1; 0]]].
Proof. vm_compute. split; reflexivity. Qed.

(** C8: on well-shaped inputs, a batch of exactly one element passes the
    assertion and a grid of the shape of [init_grid] is returned; a batch of
    more than one element fails at the assertion. *)
Theorem splat_batch_assertion B F nPt grid_dims init_grid feat coords :
  well_shaped B F nPt grid_dims init_grid feat coords ->
  (B = 1%nat ->
   exists g,
     splat_feat_nd grid_dims init_grid feat coords = Ok g
     /\ has_shape 1 F (Z.to_nat (shape_size grid_dims)) g)
  /\ ((1 < B)%nat ->
      splat_feat_nd grid_dims init_grid feat coords = Raise AssertionError).
Proof.
  intros Hws. split.
  - intros ->. apply (splat_feat_nd_returns F nPt). exact Hws.
  - intros HB. apply (splat_feat_nd_asserts B F nPt); assumption.
Qed.

Lemma splat_batch_assertion_witness :
  (exists g,
      splat_feat_nd [4%Z] [[[0; 0; 0; 0]]] [[[3]]] [[[0]]] = Ok g)
  /\ splat_feat_nd [4%Z] [[[0; 0; 0; 0]]; [[0; 0; 0; 0]]]
                   [[[3]]; [[3]]] [[[0]]; [[0]]]
     = Raise AssertionError.
Proof.
  split.
  - destruct (splat_batch_assertion 1 1 1 [4%Z] [[[0; 0; 0; 0]]] [[[3]]]
                                    [[[0]]]) as [Hone _].
    + constructor.
      * split; [discriminate | repeat constructor; discriminate].
      * split; [reflexivity | repeat constructor].
      * split; [reflexivity | repeat constructor].
      * split; [reflexivity | repeat constructor].
    + destruct (Hone eq_refl) as (g & Hg & _). exists g. exact Hg.
  - apply (splat_batch_assertion 2 1 1 [4%Z]
             [[[0; 0; 0; 0]]; [[0; 0; 0; 0]]] [[[3]]; [[3]]] [[[0]]; [[0]]]).
    + constructor.
      * split; [discriminate | repeat constructor; discriminate].
      * split; [reflexivity | repeat constructor].
      * split; [reflexivity | repeat constructor].
      * split; [reflexivity | repeat constructor].
    + lia.
Defined.

End SplatterClaims.


(** *** Conservation of the weights *)

Section SplatterWeights.

Import Splatter.
Local Open Scope Q_scope.

Lemma Qsum_set_nth k x row :
  (k < length row)%nat ->
  Qsum (set_nth k x row) == Qsum row + (x - nth k row 0).
Proof.
  revert k; induction row as [|c row IH]; intros [|k] Hk; simpl in *;
    try lia.
  - fold (Qsum row). ring.
  - fold (Qsum (set_nth k x row)). fold (Qsum row).
    rewrite IH by lia. ring.
Qed.

Lemma singleton_nth {A} (l : list A) (d : A) :
  length l = 1%nat -> l = [nth 0 l d].
Proof. destruct l as [|a [|b l]]; try discriminate. reflexivity. Qed.

(** With a single point, one iteration adds [feature * weight] to the sum
    of a feature row when nothing is rounded. *)
Lemma step_sum F grid_dims feat_b coords_b g_b ix_d f :
  element_shaped F 1 grid_dims feat_b coords_b ->
  binary ix_d ->
  length g_b = F ->
  Forall (fun row => length row = Z.to_nat (shape_size grid_dims)) g_b ->
  (f < F)%nat ->
  Qsum (nth f (step (fun q => q) grid_dims feat_b coords_b g_b ix_d) [])
  == Qsum (nth f g_b [])
     + nth 0 (nth f feat_b []) 0 * combined_weight grid_dims coords_b ix_d 0.
Proof.
  intros Hes Hb Hg Hrows Hf.
  rewrite (step_nth _ grid_dims feat_b coords_b F 1 Hes) by assumption.
  pose proof (index_row_length grid_dims feat_b coords_b F 1 Hes ix_d Hb)
    as Hi.
  pose proof (wts_row_length grid_dims feat_b coords_b F 1 Hes ix_d Hb)
    as Hw.
  pose proof (feat_row_length grid_dims feat_b coords_b F 1 Hes f Hf)
    as Hfr.
  pose proof (index_row_range grid_dims feat_b coords_b F 1 Hes ix_d 0 Hb
                (Nat.lt_0_succ 0)) as Hrange.
  assert (Hrow : length (nth f g_b []) = Z.to_nat (shape_size grid_dims)).
  { rewrite Forall_forall in Hrows. apply Hrows. apply nth_In. lia. }
  unfold pass_row, combined_weight. rewrite map_id.
  rewrite (singleton_nth _ 0%Z Hi), (singleton_nth _ 0 Hw),
    (singleton_nth _ 0 Hfr).
  set (i := nth 0 (index_row grid_dims coords_b ix_d) 0%Z) in *.
  set (w := nth 0 (wts_row grid_dims coords_b ix_d) 0).
  set (v := nth 0 (nth f feat_b []) 0).
  set (row := nth f g_b []) in *.
  unfold iadd_at. cbn [getitem map zip_with setitem nth].
  rewrite Qsum_set_nth by lia. ring.
Qed.

Lemma fold_step_sum F grid_dims feat_b coords_b :
  element_shaped F 1 grid_dims feat_b coords_b ->
  forall combos g_b f,
    Forall binary combos ->
    length g_b = F ->
    Forall (fun row => length row = Z.to_nat (shape_size grid_dims)) g_b ->
    (f < F)%nat ->
    Qsum (nth f (fold_left (step (fun q => q) grid_dims feat_b coords_b)
                           combos g_b) [])
    == Qsum (nth f g_b [])
       + nth 0 (nth f feat_b []) 0
         * Qsum (map (fun ix_d => combined_weight grid_dims coords_b ix_d 0)
                     combos).
Proof.
  intros Hes.
  induction combos as [|c rest IH]; intros g_b f Hc Hg Hrows Hf.
  - simpl. ring.
  - apply Forall_cons_iff in Hc. destruct Hc as [Hb Hrest].
    cbn [fold_left map]. rewrite IH; auto.
    + rewrite (step_sum F) by assumption.
      simpl Qsum. fold (Qsum (map (fun ix_d =>
                                combined_weight grid_dims coords_b ix_d 0) rest)).
      ring.
    + apply (step_length _ grid_dims feat_b coords_b F 1 Hes). assumption.
    + apply (step_row_lengths _ grid_dims feat_b coords_b F 1 Hes); assumption.
Qed.

(** C4: for a point strictly inside the grid, the combined weights of the
    [2 ^ n_dims] combinations add up to 1; and, leaving the rounding out,
    splatting a single such point adds exactly its feature value to the sum
    of every feature row of the grid. *)
Theorem interior_weights_sum_to_one
  (grid_dims : list Z) (coords_b : list (list Q)) (nPt p : nat) :
  grid_dims <> [] ->
  Forall (fun row => length row = nPt) coords_b ->
  (p < nPt)%nat ->
  interior grid_dims coords_b p ->
  Qsum (map (fun ix_d => combined_weight grid_dims coords_b ix_d p)
            (product01 (length grid_dims))) == 1
  /\ (forall F init_grid feat,
         nPt = 1%nat ->
         well_shaped 1 F 1 grid_dims init_grid feat [coords_b] ->
         exists g,
           splat_unrounded grid_dims init_grid feat [coords_b] = Ok g
           /\ forall f, (f < F)%nat ->
                Qsum (nth f (nth 0 g []) [])
                == Qsum (nth f (nth 0 init_grid []) []) + cell feat 0 f 0).
Proof.
  intros Hne Hcols Hp Hint.
  assert (Hlen : length coords_b = length grid_dims).
  { symmetry. eapply Forall2_length. exact Hint. }
  assert (Hsum : Qsum (map (fun ix_d => combined_weight grid_dims coords_b ix_d p)
                           (product01 (length grid_dims))) == 1).
  { rewrite (map_ext_in _
               (fun ix_d => snd (point_index_wts grid_dims (column coords_b p)
                                                 ix_d 0 1))).
    - apply point_wts_sum. apply interior_column. exact Hint.
    - intros c Hin.
      pose proof (product01_spec (length grid_dims)) as Hspec.
      rewrite Forall_forall in Hspec. destruct (Hspec c Hin) as [Hb _].
      rewrite <- (flat_index_combined_weight grid_dims coords_b c nPt p);
        auto. }
  split; [exact Hsum|].
  intros F init_grid feat -> Hws.
  assert (p = 0%nat) by lia. subst p.
  destruct (well_shaped_single _ _ _ _ _ _ Hws)
    as (g_b & feat_b & coords_b' & -> & -> & [= <-] & Hg & Hgr & Hes).
  unfold splat_unrounded.
  rewrite (splat_with_single _ F 1) by assumption.
  eexists. split; [reflexivity|].
  intros f Hf. unfold cell. cbn [nth].
  rewrite (fold_step_sum F grid_dims feat_b coords_b Hes); auto.
  - rewrite Hsum. ring.
  - eapply Forall_impl; [|apply product01_spec]. intros c [Hb _]. exact Hb.
Qed.

Lemma interior_weights_sum_to_one_witness :
  Qsum (map (fun ix_d => combined_weight [4%Z; 4%Z] [[1 # 8]; [1 # 8]] ix_d 0)
            (product01 2)) == 1
  /\ exists g,
       splat_unrounded [4%Z; 4%Z]
         [[[0; 0; 0; 0; 0; 0; 0; 0; 0; 0; 0; 0; 0; 0; 0; 0]]]
         [[[4]]] [[[1 # 8]; [1 # 8]]] = Ok g
       /\ Qsum (nth 0 (nth 0 g []) []) == 4.
Proof.
  destruct (interior_weights_sum_to_one
              [4%Z; 4%Z] [[1 # 8]; [1 # 8]] 1 0) as [Hsum Hgrid].
  - discriminate.
  - repeat constructor.
  - lia.
  - repeat constructor.
  - split; [exact Hsum|].
    destruct (Hgrid 1%nat
                [[[0; 0; 0; 0; 0; 0; 0; 0; 0; 0; 0; 0; 0; 0; 0; 0]]]
                [[[4]]] eq_refl) as (g & Hg & Hrow).
    + constructor.
      * split; [discriminate | repeat constructor; discriminate].
      * split; [reflexivity | repeat constructor].
      * split; [reflexivity | repeat constructor].
      * split; [reflexivity | repeat constructor].
    + exists g. split; [exact Hg|].
      rewrite (Hrow 0%nat) by lia. reflexivity.
Defined.

End SplatterWeights.

(** * The height in the validity test *)

Section BinnerExtras.

Import Binner.
Local Open Scope Z_scope.

(** X4: the height bucket of every point, NaN and infinite heights
    included, is in range; so the height never decides whether a point is
    valid. *)
Theorem height_never_rejects
  (indefinite : float -> Z) (map_size : Z) (z_bins : list Q)
  (xy_resolution : Q) (p : point) :
  n_z_bins z_bins <= 2 ^ 31 ->
  0 <= Z_bin z_bins p < n_z_bins z_bins
  /\ forall height,
       isvalid indefinite map_size z_bins xy_resolution
               (mkpoint (chan0 p) (chan1 p) height)
       = isvalid indefinite map_size z_bins xy_resolution p.
Proof.
  intros Hfit.
  assert (Hrange : forall q, 0 <= Z_bin z_bins q < n_z_bins z_bins).
  { intros q. unfold Z_bin, n_z_bins in *.
    pose proof (digitize_le_length (chan2 q) z_bins).
    rewrite wrap32_small; lia. }
  split; [apply Hrange|].
  intros height. unfold isvalid, isnotnan, X_bin, Y_bin. cbn [chan0 chan1].
  pose proof (Hrange p) as Hp.
  pose proof (Hrange (mkpoint (chan0 p) (chan1 p) height)) as Hq.
  replace (Z_bin z_bins p >=? 0) with true
    by (symmetry; apply Z.geb_le; lia).
  replace (Z_bin z_bins p <? n_z_bins z_bins) with true
    by (symmetry; apply Z.ltb_lt; lia).
  replace (Z_bin z_bins (mkpoint (chan0 p) (chan1 p) height) >=? 0) with true
    by (symmetry; apply Z.geb_le; lia).
  replace (Z_bin z_bins (mkpoint (chan0 p) (chan1 p) height)
           <? n_z_bins z_bins) with true
    by (symmetry; apply Z.ltb_lt; lia).
  reflexivity.
Qed.

Lemma height_never_rejects_witness :
  isvalid indefinite_x86 2 [0%Q; 1%Q; 2%Q] 1%Q
          (mkpoint (Num 1) (Num 0) (Inf false))
  = isvalid indefinite_x86 2 [0%Q; 1%Q; 2%Q] 1%Q
            (mkpoint (Num 1) (Num 0) (Num 0)).
Proof.
  apply (height_never_rejects indefinite_x86 2 [0%Q; 1%Q; 2%Q] 1%Q
           (mkpoint (Num 1) (Num 0) (Num 0))).
  vm_compute. discriminate.
Defined.

End BinnerExtras.


(** * Further properties of the splatter *)

Section SplatterWeightBounds.

Import Splatter.
Local Open Scope Q_scope.

Lemma wts_ix_lower D c :
  wts_ix D 0 c
  == (1 - (pos D c - inject_Z (Qfloor (pos D c))))
     * inject_Z (mask (safe_ix D 0 c)).
Proof.
  unfold wts_ix, pos_ix. rewrite Z.add_0_r.
  pose proof (Qfloor_le (pos D c)) as Hle.
  rewrite Qabs_pos by lra. reflexivity.
Qed.

Lemma wts_ix_upper D c :
  wts_ix D 1 c
  == (pos D c - inject_Z (Qfloor (pos D c)))
     * inject_Z (mask (safe_ix D 1 c)).
Proof.
  unfold wts_ix, pos_ix.
  pose proof (Qlt_floor (pos D c)) as Hlt.
  rewrite inject_Z_plus in *. change (inject_Z 1) with 1 in *.
  rewrite Qabs_neg by lra. ring.
Qed.

Lemma mask_cases (b : bool) : inject_Z (mask b) == 0 \/ inject_Z (mask b) == 1.
Proof. destruct b; [right | left]; reflexivity. Qed.

(** Along one dimension the two weights are not negative and add up to at
    most 1. *)
Lemma wts_ix_pair_bounds D c :
  0 <= wts_ix D 0 c /\ 0 <= wts_ix D 1 c
  /\ wts_ix D 0 c + wts_ix D 1 c <= 1.
Proof.
  rewrite wts_ix_lower, wts_ix_upper.
  pose proof (Qfloor_le (pos D c)) as Hle.
  pose proof (Qlt_floor (pos D c)) as Hlt.
  rewrite inject_Z_plus in Hlt. change (inject_Z 1) with 1 in Hlt.
  set (x := pos D c) in *. set (fl := inject_Z (Qfloor x)) in *.
  destruct (mask_cases (safe_ix D 0 c)) as [-> | ->];
    destruct (mask_cases (safe_ix D 1 c)) as [-> | ->];
    repeat split; lra.
Qed.

(** The weights of all the combinations of one point add up to at most the
    weight the loop starts from. *)
Lemma point_wts_sum_le grid_dims : forall cs i w,
  length cs = length grid_dims -> 0 <= w ->
  0 <= Qsum (map (fun ix_d => snd (point_index_wts grid_dims cs ix_d i w))
                 (product01 (length grid_dims)))
  /\ Qsum (map (fun ix_d => snd (point_index_wts grid_dims cs ix_d i w))
               (product01 (length grid_dims))) <= w.
Proof.
  induction grid_dims as [|D dims IH]; intros cs i w Hlen Hw.
  - simpl. lra.
  - destruct cs as [|c cs]; [discriminate|]. injection Hlen as Hlen.
    cbn [length product01]. rewrite map_app, !map_map, Qsum_app.
    cbn [point_index_wts].
    destruct (wts_ix_pair_bounds D c) as (H0 & H1 & H01).
    assert (Hw0 : 0 <= w * wts_ix D 0 c) by (apply Qmult_le_0_compat; lra).
    assert (Hw1 : 0 <= w * wts_ix D 1 c) by (apply Qmult_le_0_compat; lra).
    destruct (IH cs (i * D + masked_pos_ix D 0 c)%Z (w * wts_ix D 0 c)
                 Hlen Hw0) as [Ha Hb].
    destruct (IH cs (i * D + masked_pos_ix D 1 c)%Z (w * wts_ix D 1 c)
                 Hlen Hw1) as [Hc Hd].
    split; [lra|]. nra.
Qed.

Lemma point_wts_range grid_dims : forall cs ix_d i w,
  binary ix_d -> 0 <= w /\ w <= 1 ->
  0 <= snd (point_index_wts grid_dims cs ix_d i w)
  /\ snd (point_index_wts grid_dims cs ix_d i w) <= 1.
Proof.
  induction grid_dims as [|D dims IH]; intros cs ix_d i w Hb Hw.
  - exact Hw.
  - destruct cs as [|c cs]; [exact Hw|].
    destruct ix_d as [|ix ix_d]; [exact Hw|].
    apply Forall_cons_iff in Hb. destruct Hb as [Hix Hb].
    cbn [point_index_wts]. apply IH; [exact Hb|].
    destruct (wts_ix_pair_bounds D c) as (H0 & H1 & H01).
    destruct Hix as [-> | ->]; split; nra.
Qed.

(** X7: the combined weight of every combination lies between 0 and 1, and
    the weights of all the combinations of one point add up to at most 1: a
    point near the boundary loses weight and none gains any. *)
Theorem combined_weights_bounded
  (grid_dims : list Z) (coords_b : list (list Q)) (nPt p : nat) :
  grid_dims <> [] ->
  length coords_b = length grid_dims ->
  Forall (fun row => length row = nPt) coords_b ->
  (p < nPt)%nat ->
  (forall ix_d,
      In ix_d (product01 (length grid_dims)) ->
      0 <= combined_weight grid_dims coords_b ix_d p
      /\ combined_weight grid_dims coords_b ix_d p <= 1)
  /\ 0 <= Qsum (map (fun ix_d => combined_weight grid_dims coords_b ix_d p)
                    (product01 (length grid_dims)))
  /\ Qsum (map (fun ix_d => combined_weight grid_dims coords_b ix_d p)
               (product01 (length grid_dims))) <= 1.
Proof.
  intros Hne Hlen Hcols Hp.
  assert (Hcw : forall ix_d,
             In ix_d (product01 (length grid_dims)) ->
             combined_weight grid_dims coords_b ix_d p
             = snd (point_index_wts grid_dims (column coords_b p) ix_d 0 1)).
  { intros c Hin.
    pose proof (product01_spec (length grid_dims)) as Hspec.
    rewrite Forall_forall in Hspec. destruct (Hspec c Hin) as [Hb _].
    rewrite <- (flat_index_combined_weight grid_dims coords_b c nPt p); auto. }
  split.
  - intros ix_d Hin. rewrite (Hcw ix_d Hin).
    pose proof (product01_spec (length grid_dims)) as Hspec.
    rewrite Forall_forall in Hspec. destruct (Hspec ix_d Hin) as [Hb _].
    apply point_wts_range; [exact Hb | lra].
  - rewrite (map_ext_in _ _ _ Hcw).
    apply point_wts_sum_le.
    + unfold column. rewrite length_map. exact Hlen.
    + lra.
Qed.

Lemma combined_weights_bounded_witness :
  Qsum (map (fun ix_d => combined_weight [4%Z; 4%Z] [[7 # 8]; [1 # 8]] ix_d 0)
            (product01 2)) <= 1.
Proof.
  destruct (combined_weights_bounded [4%Z; 4%Z] [[7 # 8]; [1 # 8]] 1 0)
    as (_ & _ & Hsum).
  - discriminate.
  - reflexivity.
  - repeat constructor.
  - lia.
  - exact Hsum.
Defined.

End SplatterWeightBounds.

Section SplatterFrame.

Import Splatter SplatterDomain.
Local Open Scope Q_scope.

(** A cell keeps its value, up to equality of rationals, when every update
    aimed at it is zero. *)
Lemma iadd_at_cell row idx upd (j : nat) :
  length idx = length upd ->
  (forall p, (p < length idx)%nat ->
             (0 <= nth p idx 0%Z)%Z
             /\ (nth p idx 0%Z = Z.of_nat j -> nth p upd 0 == 0)) ->
  nth j (iadd_at row idx upd) 0 == nth j row 0.
Proof.
  intros Hlen H. unfold iadd_at.
  apply (setitem_cell_invariant (fun q => q == nth j row 0)).
  - reflexivity.
  - intros p Hp _ Hj.
    destruct (H p Hp) as [Hnn Hz].
    assert (Hi : nth p idx 0%Z = Z.of_nat j) by lia.
    rewrite (zip_with_nth Qplus _ _ p 0 0 0).
    + rewrite getitem_nth by exact Hp.
      rewrite (Hz Hi), Hi, Nat2Z.id. ring.
    + rewrite getitem_length. exact Hp.
    + rewrite getitem_length. exact Hlen.
Qed.

Lemma step_cell F nPt grid_dims feat_b coords_b g_b ix_d f j :
  element_shaped F nPt grid_dims feat_b coords_b ->
  binary ix_d ->
  length g_b = F -> (f < F)%nat ->
  (forall p, (p < nPt)%nat ->
             flat_index grid_dims coords_b ix_d p = Z.of_nat j ->
             nth p (nth f feat_b []) 0
             * combined_weight grid_dims coords_b ix_d p == 0) ->
  nth j (nth f (step ops_round grid_dims feat_b coords_b g_b ix_d) []) 0
  = ops_round (nth j (nth f g_b []) 0).
Proof.
  intros Hes Hb Hg Hf Hzero.
  rewrite (step_nth ops_round grid_dims feat_b coords_b F nPt Hes)
    by assumption.
  unfold pass_row. rewrite nth_map_fixed by reflexivity.
  apply ops_round_comp.
  pose proof (index_row_length grid_dims feat_b coords_b F nPt Hes ix_d Hb)
    as Hi.
  pose proof (wts_row_length grid_dims feat_b coords_b F nPt Hes ix_d Hb)
    as Hw.
  pose proof (feat_row_length grid_dims feat_b coords_b F nPt Hes f Hf)
    as Hfr.
  apply iadd_at_cell.
  - rewrite zip_with_length; congruence.
  - intros p Hp. rewrite Hi in Hp. split.
    + apply (index_row_range grid_dims feat_b coords_b F nPt Hes); assumption.
    + intros Hj.
      rewrite (zip_with_nth Qmult _ _ p 0 0 0) by lia.
      apply Hzero; assumption.
Qed.

Lemma fold_step_cell F nPt grid_dims feat_b coords_b f j :
  element_shaped F nPt grid_dims feat_b coords_b ->
  (f < F)%nat ->
  forall combos g_b,
    Forall binary combos -> combos <> [] ->
    length g_b = F ->
    (forall ix_d p,
        In ix_d combos -> (p < nPt)%nat ->
        flat_index grid_dims coords_b ix_d p = Z.of_nat j ->
        nth p (nth f feat_b []) 0
        * combined_weight grid_dims coords_b ix_d p == 0) ->
    nth j (nth f (fold_left (step ops_round grid_dims feat_b coords_b)
                            combos g_b) []) 0
    = ops_round (nth j (nth f g_b []) 0).
Proof.
  intros Hes Hf.
  induction combos as [|c rest IH]; intros g_b Hc Hnil Hg Hzero;
    [congruence|].
  apply Forall_cons_iff in Hc. destruct Hc as [Hb Hrest].
  assert (Hfirst :
            nth j (nth f (step ops_round grid_dims feat_b coords_b g_b c) []) 0
            = ops_round (nth j (nth f g_b []) 0)).
  { apply (step_cell F nPt); auto.
    intros p Hp. apply Hzero; [left; reflexivity | exact Hp]. }
  cbn [fold_left]. destruct rest as [|c' rest'].
  - exact Hfirst.
  - rewrite IH; auto; try discriminate.
    + rewrite Hfirst. apply ops_round_idempotent.
    + apply (step_length ops_round grid_dims feat_b coords_b F nPt Hes).
      assumption.
    + intros ix_d p Hin. apply Hzero. right. exact Hin.
Qed.

(** Up to [2 ^ 24] the rounding to float32 leaves an integer as it is. *)
Lemma float32_Z_exact (z : Z) :
  (0 <= z < float32_exact_limit)%Z -> float32_Z z = z.
Proof.
  unfold float32_exact_limit, float32_Z. intros Hz.
  assert (Hlog : (Z.log2 (Z.abs z) - 23 <= 0)%Z).
  { rewrite Z.abs_eq by lia.
    destruct (Z.eq_dec z 0) as [->|Hne]; [simpl; lia|].
    assert (Z.log2 z < 24)%Z by (apply Z.log2_lt_pow2; lia). lia. }
  rewrite Z.max_r by exact Hlog. change (2 ^ 0)%Z with 1%Z.
  rewrite Z.mul_1_r.
  rewrite (round_half_even_comp _ (inject_Z z)) by (unfold inject_Z; field).
  apply round_half_even_inject.
Qed.

(** On a grid of at most [2 ^ 24] cells the flat index computed in float32
    is the exact one. *)
Lemma point_index_float32_exact grid_dims : forall cs ix_d i w size,
  Forall (fun D => (1 <= D)%Z) grid_dims ->
  (0 <= i < size)%Z ->
  (size * shape_size grid_dims <= float32_exact_limit)%Z ->
  point_index_float32 grid_dims cs ix_d i
  = fst (point_index_wts grid_dims cs ix_d i w).
Proof.
  induction grid_dims as [|D dims IH]; intros cs ix_d i w size HD Hi Hfit;
    [reflexivity|].
  inversion HD as [|? ? HD1 HD']; subst.
  assert (Hs : (1 <= shape_size dims)%Z).
  { clear -HD'. induction HD'; simpl; [lia|]. fold (shape_size l). nia. }
  change (shape_size (D :: dims)) with (D * shape_size dims)%Z in Hfit.
  destruct cs as [|c cs]; [reflexivity|].
  destruct ix_d as [|ix ix_d]; [reflexivity|].
  cbn [point_index_float32 point_index_wts].
  pose proof (masked_pos_ix_range D ix c HD1) as He.
  assert (HsD : (size * D <= float32_exact_limit)%Z).
  { apply Z.le_trans with (size * D * shape_size dims)%Z;
      [|rewrite <- Z.mul_assoc; exact Hfit].
    rewrite <- (Z.mul_1_r (size * D)) at 1.
    apply Z.mul_le_mono_nonneg_l; [apply Z.mul_nonneg_nonneg|]; lia. }
  assert (Hprod : (0 <= i * D)%Z) by (apply Z.mul_nonneg_nonneg; lia).
  assert (Hsum : (i * D + masked_pos_ix D ix c < size * D)%Z).
  { assert ((i + 1) * D <= size * D)%Z
      by (apply Z.mul_le_mono_nonneg_r; lia).
    lia. }
  rewrite (float32_Z_exact (i * D)) by lia.
  rewrite float32_Z_exact by lia.
  apply (IH cs ix_d _ _ (size * D)%Z); auto; [lia|].
  replace (size * D * shape_size dims)%Z
    with (size * (D * shape_size dims))%Z by ring.
  exact Hfit.
Qed.

(** Beyond that limit the two differ: on a grid of 4097 by 4097 cells the
    exact flat index of cell (4096, 1) is odd and above [2 ^ 24], and its
    float32 value is the even integer below it. *)
Lemma float32_index_differs :
  let coords_b := [[4095 # 4097]; [- (4095 # 4097)]] in
  flat_index [4097%Z; 4097%Z] coords_b [0%Z; 0%Z] 0 = 16781313%Z
  /\ flat_index_float32 [4097%Z; 4097%Z] coords_b [0%Z; 0%Z] 0
     = 16781312%Z.
Proof. vm_compute. split; reflexivity. Qed.

(** X8: on a grid of at most [2 ^ 24] cells, a cell at which only zero
    contributions are aimed, in particular a cell that the flat index, as
    the code computes it in float32, of no point and no combination hits,
    comes back as the rounding of its initial value. *)
Theorem untouched_cell_only_rounded
  F nPt grid_dims init_grid feat coords (f j : nat) :
  well_shaped 1 F nPt grid_dims init_grid feat coords ->
  (shape_size grid_dims <= float32_exact_limit)%Z ->
  (f < F)%nat ->
  (forall ix_d p,
      In ix_d (product01 (length grid_dims)) -> (p < nPt)%nat ->
      flat_index_float32 grid_dims (nth 0 coords []) ix_d p = Z.of_nat j ->
      cell feat 0 f p * combined_weight grid_dims (nth 0 coords []) ix_d p
      == 0) ->
  exists g,
    splat_feat_nd grid_dims init_grid feat coords = Ok g
    /\ cell g 0 f j = ops_round (cell init_grid 0 f j).
Proof.
  intros Hws Hfit Hf Hzero.
  destruct (well_shaped_single _ _ _ _ _ _ Hws)
    as (g_b & feat_b & coords_b & -> & -> & -> & Hg & Hgr & Hes).
  unfold splat_feat_nd.
  rewrite (splat_with_single _ F nPt) by assumption.
  eexists. split; [reflexivity|].
  unfold cell in *. cbn [nth] in *.
  apply (fold_step_cell F nPt); auto.
  - eapply Forall_impl; [|apply product01_spec]. intros c [Hb _]. exact Hb.
  - destruct (product01_cons (length grid_dims)) as (c & rest & ->).
    discriminate.
  - intros ix_d p Hin Hp Hj. apply Hzero; auto.
    pose proof Hes as [Hne Hpos Hrows Hcols _ _].
    pose proof (product01_spec (length grid_dims)) as Hspec.
    rewrite Forall_forall in Hspec. destruct (Hspec ix_d Hin) as [Hb Hl].
    pose proof (flat_index_combined_weight grid_dims coords_b ix_d nPt p
                  Hne Hrows Hcols Hb Hp) as E.
    apply (f_equal fst) in E. cbn [fst] in E. rewrite <- Hj, E.
    unfold flat_index_float32.
    apply (point_index_float32_exact grid_dims _ _ _ _ 1%Z); auto; lia.
Qed.

Lemma untouched_cell_only_rounded_witness :
  exists g,
    splat_feat_nd [4%Z] [[[0; 5 # 2; 0; 0]]] [[[3]]] [[[0]]] = Ok g
    /\ cell g 0 0 1 = 2.
Proof.
  destruct (untouched_cell_only_rounded 1 1 [4%Z] [[[0; 5 # 2; 0; 0]]]
              [[[3]]] [[[0]]] 0 1) as (g & Hg & Hcell).
  - constructor.
    + split; [discriminate | repeat constructor; discriminate].
    + split; [reflexivity | repeat constructor].
    + split; [reflexivity | repeat constructor].
    + split; [reflexivity | repeat constructor].
  - vm_compute. discriminate.
  - lia.
  - intros ix_d p Hin Hp Hj. exfalso.
    assert (p = 0%nat) by lia. subst p.
    simpl in Hin. destruct Hin as [<- | [<- | []]]; vm_compute in Hj;
      discriminate.
  - exists g. split; [exact Hg | exact Hcell].
Defined.

(** Along a dimension where the coordinate is at most [-1] or at least [1],
    both neighbours have weight 0. *)
Lemma wts_ix_outside D ix c :
  (1 <= D)%Z -> ix = 0%Z \/ ix = 1%Z ->
  c <= - (1) \/ 1 <= c ->
  wts_ix D ix c == 0.
Proof.
  intros HD Hix Hc.
  assert (HDq : 1 <= inject_Z D).
  { change 1 with (inject_Z 1). rewrite <- Zle_Qle. exact HD. }
  assert (Hpos : pos D c <= 0 \/ inject_Z D <= pos D c).
  { unfold pos.
    setoid_replace (c * inject_Z D / 2 + inject_Z D / 2)
      with ((c * inject_Z D + inject_Z D) * (1 # 2)) by field.
    destruct Hc as [Hc | Hc]; [left | right].
    - assert (c * inject_Z D <= - (1) * inject_Z D)
        by (apply Qmult_le_compat_r; lra).
      lra.
    - assert (1 * inject_Z D <= c * inject_Z D)
        by (apply Qmult_le_compat_r; lra).
      lra. }
  pose proof (Qfloor_le (pos D c)) as Hle.
  pose proof (Qlt_floor (pos D c)) as Hlt.
  rewrite inject_Z_plus in Hlt. change (inject_Z 1) with 1 in Hlt.
  unfold wts_ix, safe_ix, pos_ix.
  destruct Hpos as [Hp | Hp].
  - assert (Hfl : (Qfloor (pos D c) <= 0)%Z).
    { rewrite Zle_Qle. change (inject_Z 0) with 0. lra. }
    destruct Hix as [-> | ->].
    + replace (0 <? Qfloor (pos D c) + 0)%Z with false
        by (symmetry; apply Z.ltb_ge; lia).
      cbn [andb mask]. change (inject_Z 0) with 0. ring.
    + destruct (Z.eq_dec (Qfloor (pos D c)) 0) as [E | E].
      * rewrite E in *. change (inject_Z 0) with 0 in *.
        assert (Hz : pos D c == 0) by lra.
        rewrite Hz. change (inject_Z (0 + 1)) with 1.
        setoid_replace (0 - 1) with (- (1)) by ring.
        change (Qabs (- (1))) with 1.
        destruct (mask_cases ((0 <? 0 + 1)%Z && (0 + 1 <? D)%Z)) as [-> | ->];
          ring.
      * replace (0 <? Qfloor (pos D c) + 1)%Z with false
          by (symmetry; apply Z.ltb_ge; lia).
        cbn [andb mask]. change (inject_Z 0) with 0. ring.
  - assert (Hfl : (D <= Qfloor (pos D c))%Z).
    { pose proof (Qfloor_resp_le _ _ Hp) as H. rewrite Qfloor_Z in H.
      exact H. }
    replace (Qfloor (pos D c) + ix <? D)%Z with false
      by (symmetry; apply Z.ltb_ge; destruct Hix; lia).
    rewrite andb_false_r. cbn [mask]. change (inject_Z 0) with 0. ring.
Qed.

Lemma point_wts_outside grid_dims : forall cs ix_d i w,
  Forall (fun D => (1 <= D)%Z) grid_dims ->
  length cs = length grid_dims -> length ix_d = length grid_dims ->
  binary ix_d ->
  Exists (fun c => c <= - (1) \/ 1 <= c) cs ->
  snd (point_index_wts grid_dims cs ix_d i w) == 0.
Proof.
  induction grid_dims as [|D dims IH]; intros cs ix_d i w HD Hcs Hix Hb Hex.
  - destruct cs; [inversion Hex | discriminate].
  - destruct cs as [|c cs]; [discriminate|].
    destruct ix_d as [|ix ix_d]; [discriminate|].
    apply Forall_cons_iff in HD. destruct HD as [HD1 HD].
    apply Forall_cons_iff in Hb. destruct Hb as [Hb1 Hb].
    injection Hcs as Hcs. injection Hix as Hix.
    cbn [point_index_wts].
    apply Exists_cons in Hex. destruct Hex as [Hc | Hex].
    + apply point_wts_zero.
      rewrite (wts_ix_outside D ix c HD1 Hb1 Hc). ring.
    + apply IH; assumption.
Qed.

(** X9: points with a coordinate at most [-1] or at least [1] contribute
    nothing: a call whose points are all such (or that has no point) returns
    the rounded initial grid. *)
Theorem outside_points_contribute_nothing
  F nPt grid_dims init_grid feat coords :
  well_shaped 1 F nPt grid_dims init_grid feat coords ->
  (forall p, (p < nPt)%nat -> outside (nth 0 coords []) p) ->
  splat_feat_nd grid_dims init_grid feat coords
  = Ok (map_tensor ops_round init_grid).
Proof.
  intros Hws Hout.
  destruct (well_shaped_single _ _ _ _ _ _ Hws)
    as (g_b & feat_b & coords_b & -> & -> & -> & Hg & Hgr & Hes).
  cbn [nth] in Hout.
  unfold splat_feat_nd.
  rewrite (splat_with_single _ F nPt) by assumption.
  unfold map_tensor. cbn [map].
  enough (E : fold_left (step ops_round grid_dims feat_b coords_b)
                        (product01 (length grid_dims)) g_b
              = map (map ops_round) g_b) by (rewrite E; reflexivity).
  pose proof Hes as [Hne Hpos Hrows Hcols Hfeat Hfcols].
  destruct (fold_step_shape ops_round grid_dims feat_b coords_b F nPt Hes
              (Z.to_nat (shape_size grid_dims))
              (product01 (length grid_dims)) g_b Hg Hgr) as [Hlen Hrl].
  assert (Hbin : Forall binary (product01 (length grid_dims))).
  { eapply Forall_impl; [|apply product01_spec]. intros c [Hb _]. exact Hb. }
  apply (nth_ext _ _ [] []).
  - rewrite length_map. congruence.
  - intros f Hf. rewrite Hlen in Hf.
    rewrite (nth_indep (map _ g_b) [] (map ops_round [])) by
      (rewrite length_map; lia).
    rewrite map_nth.
    assert (Hrow : length (nth f g_b []) = Z.to_nat (shape_size grid_dims)).
    { rewrite Forall_forall in Hgr. apply Hgr. apply nth_In. lia. }
    apply (nth_ext _ _ 0 0).
    + rewrite length_map, Hrow.
      rewrite Forall_forall in Hrl. apply Hrl. apply nth_In. lia.
    + intros j _. rewrite (nth_map_fixed ops_round 0) by reflexivity.
      apply (fold_step_cell F nPt); auto.
      * destruct (product01_cons (length grid_dims)) as (c & rest & ->).
        discriminate.
      * intros ix_d p Hin Hp _.
        pose proof (product01_spec (length grid_dims)) as Hspec.
        rewrite Forall_forall in Hspec. destruct (Hspec ix_d Hin) as [Hb Hl].
        pose proof (flat_index_combined_weight grid_dims coords_b ix_d nPt p
                      Hne Hrows Hcols Hb Hp) as E.
        apply (f_equal snd) in E. cbn [snd] in E. rewrite E.
        rewrite point_wts_outside; auto.
        -- ring.
        -- unfold column. rewrite length_map. exact Hrows.
        -- unfold column. apply Exists_map. exact (Hout p Hp).
Qed.

Lemma outside_points_contribute_nothing_witness :
  splat_feat_nd [4%Z] [[[1 # 2; 3 # 2; 0; 7]]] [[[3; 5]]] [[[1; - (2)]]]
  = Ok [[[0; 2; 0; 7]]].
Proof.
  apply (outside_points_contribute_nothing 1 2 [4%Z]
           [[[1 # 2; 3 # 2; 0; 7]]] [[[3; 5]]] [[[1; - (2)]]]).
  - constructor.
    + split; [discriminate | repeat constructor; discriminate].
    + split; [reflexivity | repeat constructor].
    + split; [reflexivity | repeat constructor].
    + split; [reflexivity | repeat constructor].
  - intros p Hp. apply Exists_cons_hd. cbn [nth].
    destruct p as [|[|p]]; [right | left | lia]; cbn [nth]; discriminate.
Defined.

End SplatterFrame.


(** * Further properties of the camera model *)

Section CameraExtras.

Import Camera.
Local Open Scope R_scope.

(** Half of a field of view between 0 and 180 degrees is an angle between 0
    and a right angle. *)
Lemma half_angle_range (fov : R) :
  0 < fov < 180 -> 0 < deg2rad (fov / 2) < PI / 2.
Proof.
  intros [H0 H1]. pose proof PI_RGT_0 as Hpi. unfold deg2rad.
  split.
  - apply Rmult_lt_0_compat; lra.
  - replace (PI / 2) with (90 * (PI / 180)) by field.
    apply Rmult_lt_compat_r; lra.
Qed.

Lemma half_angle_tan (fov : R) :
  0 < fov < 180 ->
  cos (deg2rad (fov / 2)) <> 0 /\ 0 < tan (deg2rad (fov / 2)).
Proof.
  intros H. destruct (half_angle_range fov H) as [H0 H1]. split.
  - apply Rgt_not_eq. apply cos_gt_0; lra.
  - apply tan_gt_0; assumption.
Qed.

Lemma get_camera_matrix_returns (width height fov : R) :
  cos (deg2rad (fov / 2)) <> 0 -> tan (deg2rad (fov / 2)) <> 0 ->
  CameraMatrix.get_camera_matrix width height fov
  = Ok {| CameraMatrix.xc := (width - 1) / 2;
          CameraMatrix.zc := (height - 1) / 2;
          CameraMatrix.f := (width / 2) / tan (deg2rad (fov / 2)) |}.
Proof.
  intros Hc Ht.
  unfold CameraMatrix.get_camera_matrix, bind, np_tan, tensor_div.
  destruct (Req_dec_T (cos (deg2rad (fov / 2))) 0); [contradiction|].
  destruct (Req_dec_T (tan (deg2rad (fov / 2))) 0); [contradiction|].
  reflexivity.
Qed.

(** X10: for an image of positive size and a field of view strictly between
    0 and 180 degrees the intrinsic parameters are returned, with positive
    focal lengths and the principal point at half the size. *)
Theorem intrinsics_of_a_real_camera (width height hfov : R) :
  0 < width -> 0 < height -> 0 < hfov < 180 ->
  exists cm,
    get_camera_intrinsic_parameters width height hfov = Ok cm
    /\ 0 < fx cm /\ 0 < fy cm
    /\ cx cm = width / 2 /\ cy cm = height / 2.
Proof.
  intros Hw Hh Hfov.
  destruct (half_angle_tan hfov Hfov) as [Hc Ht].
  destruct (get_camera_intrinsic_parameters_returns width height hfov)
    as [cm Hcm]; try lra.
  exists cm. split; [exact Hcm|].
  destruct (get_camera_intrinsic_parameters_inv _ _ _ _ Hcm)
    as (_ & _ & _ & Hfx & Hfy).
  assert (Hpos : 0 < width / 2 / tan (deg2rad (hfov / 2))).
  { apply Rdiv_lt_0_compat; lra. }
  assert (Hfy' : fy cm = width / 2 / tan (deg2rad (hfov / 2))).
  { rewrite Hfy. field. repeat split; lra. }
  split; [rewrite Hfx; exact Hpos|]. split; [rewrite Hfy'; exact Hpos|].
  revert Hcm.
  unfold get_camera_intrinsic_parameters, bind, py_div, np_tan, tensor_div.
  repeat match goal with
         | |- context [Req_dec_T ?a ?b] => destruct (Req_dec_T a b)
         end; try discriminate.
  intros [= <-]. split; reflexivity.
Qed.

Lemma intrinsics_of_a_real_camera_witness :
  exists cm,
    get_camera_intrinsic_parameters 640 480 79 = Ok cm /\ 0 < fx cm.
Proof.
  destruct (intrinsics_of_a_real_camera 640 480 79) as (cm & Hcm & Hfx & _).
  - lra.
  - lra.
  - lra.
  - exists cm. split; [exact Hcm | exact Hfx].
Defined.

(** X11: whenever the intrinsic parameters are returned, [get_camera_matrix]
    returns for the same image and field of view, and the two agree on [xc],
    [zc] and [f]; [f] is the horizontal focal length [fx]. *)
Theorem camera_matrix_agrees_with_intrinsics (width height fov : R) cm :
  get_camera_intrinsic_parameters width height fov = Ok cm ->
  exists c,
    CameraMatrix.get_camera_matrix width height fov = Ok c
    /\ CameraMatrix.xc c = xc cm
    /\ CameraMatrix.zc c = zc cm
    /\ CameraMatrix.f c = f cm
    /\ f cm = fx cm.
Proof.
  unfold get_camera_intrinsic_parameters, CameraMatrix.get_camera_matrix,
    bind, py_div, np_tan, tensor_div.
  repeat match goal with
         | |- context [Req_dec_T ?a ?b] => destruct (Req_dec_T a b)
         end; try discriminate.
  intros [= <-]. eexists. split; [reflexivity|].
  cbn. repeat split; reflexivity.
Qed.

Lemma camera_matrix_agrees_with_intrinsics_witness :
  exists cm c,
    get_camera_intrinsic_parameters 4 4 90 = Ok cm
    /\ CameraMatrix.get_camera_matrix 4 4 90 = Ok c
    /\ CameraMatrix.f c = fx cm.
Proof.
  destruct (get_camera_intrinsic_parameters_returns 4 4 90) as [cm Hcm].
  - lra.
  - lra.
  - rewrite deg2rad_45. exact cos_PI4_neq_0.
  - rewrite deg2rad_45, tan_PI4. lra.
  - destruct (camera_matrix_agrees_with_intrinsics 4 4 90 cm Hcm)
      as (c & Hc & _ & _ & Hf & Hfx).
    exists cm, c. split; [exact Hcm|]. split; [exact Hc|].
    rewrite Hf. exact Hfx.
Defined.

(** X12: a wider field of view gives a shorter focal length. *)
Theorem focal_length_decreases_with_fov (width height fov1 fov2 : R) :
  0 < width -> 0 < fov1 -> fov1 < fov2 -> fov2 < 180 ->
  exists c1 c2,
    CameraMatrix.get_camera_matrix width height fov1 = Ok c1
    /\ CameraMatrix.get_camera_matrix width height fov2 = Ok c2
    /\ 0 < CameraMatrix.f c2 /\ CameraMatrix.f c2 < CameraMatrix.f c1.
Proof.
  intros Hw H0 H12 H2.
  assert (Hf1 : 0 < fov1 < 180) by lra.
  assert (Hf2 : 0 < fov2 < 180) by lra.
  destruct (half_angle_tan fov1 Hf1) as [Hc1 Ht1].
  destruct (half_angle_tan fov2 Hf2) as [Hc2 Ht2].
  destruct (half_angle_range fov1 Hf1) as [Ha1 Hb1].
  destruct (half_angle_range fov2 Hf2) as [Ha2 Hb2].
  assert (Hlt : tan (deg2rad (fov1 / 2)) < tan (deg2rad (fov2 / 2))).
  { pose proof PI_RGT_0 as Hpi.
    apply tan_increasing; try lra.
    unfold deg2rad. apply Rmult_lt_compat_r; lra. }
  eexists _, _.
  split; [apply get_camera_matrix_returns; lra|].
  split; [apply get_camera_matrix_returns; lra|].
  cbn [CameraMatrix.f]. split.
  - apply Rdiv_lt_0_compat; lra.
  - unfold Rdiv. apply Rmult_lt_compat_l; [lra|].
    apply Rinv_lt_contravar; [|exact Hlt].
    apply Rmult_lt_0_compat; assumption.
Qed.

Lemma focal_length_decreases_with_fov_witness :
  exists c1 c2,
    CameraMatrix.get_camera_matrix 640 480 60 = Ok c1
    /\ CameraMatrix.get_camera_matrix 640 480 90 = Ok c2
    /\ CameraMatrix.f c2 < CameraMatrix.f c1.
Proof.
  destruct (focal_length_decreases_with_fov 640 480 60 90)
    as (c1 & c2 & H1 & H2 & _ & Hlt).
  - lra.
  - lra.
  - lra.
  - lra.
  - exists c1, c2. split; [exact H1|]. split; [exact H2 | exact Hlt].
Defined.

End CameraExtras.


(** * Properties of the point-cloud projector *)

Section ProjectorFacts.

Import Binner Projector.
Local Open Scope Q_scope.

Lemma nth_map_in {A B} (g : A -> B) (l : list A) i (dA : A) (dB : B) :
  (i < length l)%nat -> nth i (map g l) dB = g (nth i l dA).
Proof.
  revert i; induction l as [|a l IH]; intros [|i] Hi; cbn in *;
    try lia; auto.
  apply IH. lia.
Qed.

(** *** Strided slices *)

Lemma strided_nth {A} (scale : nat) (d : A) :
  (1 <= scale)%nat ->
  forall l skip k,
    nth k (strided scale skip l) d = nth (skip + k * scale) l d.
Proof.
  intros Hs. induction l as [|a l IH]; intros skip k.
  - cbn [strided]. destruct k, skip; destruct (_ + _)%nat; reflexivity.
  - destruct skip as [|m]; cbn [strided].
    + destruct k as [|k]; [reflexivity|].
      cbn [nth]. rewrite IH.
      replace (0 + S k * scale)%nat with (S (scale - 1 + k * scale)) by lia.
      reflexivity.
    + rewrite IH. reflexivity.
Qed.

Lemma strided_length_lt {A} (scale : nat) :
  (1 <= scale)%nat ->
  forall (l : list A) skip k,
    (k < length (strided scale skip l))%nat
    <-> (skip + k * scale < length l)%nat.
Proof.
  intros Hs. induction l as [|a l IH]; intros skip k.
  - cbn [strided length]. lia.
  - destruct skip as [|m]; cbn [strided length].
    + destruct k as [|k]; [lia|].
      rewrite <- Nat.succ_lt_mono, IH. lia.
    + rewrite IH. lia.
Qed.

Lemma strided_length_eq {A B} (scale : nat) (l : list A) : forall (m : list B) skip,
  length l = length m ->
  length (strided scale skip l) = length (strided scale skip m).
Proof.
  induction l as [|a l IH]; intros [|b m] skip H; try discriminate;
    [reflexivity|].
  injection H as H. destruct skip; cbn [strided length]; auto.
Qed.

Lemma strided_one {A} (l : list A) : strided 1 0 l = l.
Proof. induction l as [|a l IH]; cbn [strided]; [|cbn; rewrite IH]; auto. Qed.

Lemma sub2_row {A} scale (a : list (list A)) i :
  (1 <= scale)%nat ->
  nth i (sub2 scale a) [] = strided scale 0 (nth (i * scale) a []).
Proof.
  intros Hs. unfold sub2.
  change (@nil A) with (strided scale 0 (@nil A)) at 1.
  rewrite map_nth, strided_nth by exact Hs. reflexivity.
Qed.

Lemma sub2_length_lt {A} scale (a : list (list A)) i :
  (1 <= scale)%nat ->
  (i < length (sub2 scale a))%nat <-> (i * scale < length a)%nat.
Proof.
  intros Hs. unfold sub2. rewrite length_map.
  rewrite strided_length_lt by exact Hs. reflexivity.
Qed.

Lemma sub2_length_eq {A B} scale (a : list (list A)) (b : list (list B)) :
  length a = length b -> length (sub2 scale a) = length (sub2 scale b).
Proof.
  intros H. unfold sub2. rewrite !length_map. now apply strided_length_eq.
Qed.

(** *** Arrays of the same shape *)

Lemma zip2_row {A B C} (g : A -> B -> C) a b i :
  (i < length a)%nat -> length a = length b ->
  nth i (zip2 g a b) [] = Splatter.zip_with g (nth i a []) (nth i b []).
Proof.
  intros Hi Hlen. unfold zip2.
  apply (zip_with_nth _ a b i [] [] []); assumption.
Qed.

Lemma zip2_length {A B C} (g : A -> B -> C) a b :
  length a = length b -> length (zip2 g a b) = length a.
Proof. intros H. unfold zip2. now apply zip_with_length. Qed.

(** *** The coordinate grids *)

Lemma arange_length n : length (arange n) = n.
Proof. unfold arange. now rewrite length_map, length_seq. Qed.

Lemma arange_nth n k :
  (k < n)%nat -> nth k (arange n) 0 = inject_Z (Z.of_nat k).
Proof.
  intros Hk. unfold arange.
  change 0 with ((fun k => inject_Z (Z.of_nat k)) 0%nat) at 1.
  rewrite map_nth, seq_nth by exact Hk. reflexivity.
Qed.

Lemma arange_down_length n : length (arange_down n) = n.
Proof. unfold arange_down. now rewrite length_rev, arange_length. Qed.

Lemma arange_down_nth n k :
  (k < n)%nat ->
  nth k (arange_down n) 0 = inject_Z (Z.of_nat (n - 1 - k)).
Proof.
  intros Hk. unfold arange_down.
  rewrite rev_nth by (rewrite arange_length; exact Hk).
  rewrite arange_length, arange_nth by lia.
  f_equal. f_equal. lia.
Qed.

Lemma constant_rows_nth {A B} (c : B) (l : list A) k (d : B) :
  (k < length l)%nat -> nth k (map (fun _ => c) l) d = c.
Proof. apply nth_map_const. Qed.

Lemma zip2_row_length {A B C} (g : A -> B -> C) a b i :
  (i < length a)%nat -> length a = length b ->
  length (nth i a []) = length (nth i b []) ->
  length (nth i (zip2 g a b) []) = length (nth i a []).
Proof.
  intros Hi Hlen Hrow. rewrite zip2_row by assumption.
  now apply zip_with_length.
Qed.

Lemma zip2_nth {A B C} (g : A -> B -> C) a b i j da db dc :
  (i < length a)%nat -> length a = length b ->
  (j < length (nth i a []))%nat ->
  length (nth i a []) = length (nth i b []) ->
  nth j (nth i (zip2 g a b) []) dc
  = g (nth j (nth i a []) da) (nth j (nth i b []) db).
Proof.
  intros Hi Hlen Hj Hrow. rewrite zip2_row by assumption.
  apply zip_with_nth; assumption.
Qed.

Lemma image_row H W Y r :
  image H W Y -> (r < H)%nat -> length (nth r Y []) = W.
Proof.
  intros [Hlen Hrows] Hr. rewrite Forall_forall in Hrows.
  apply Hrows. apply nth_In. lia.
Qed.

Lemma image_hd H W Y :
  image H W Y -> (0 < H)%nat -> length (hd [] Y) = W.
Proof.
  intros HY HH. rewrite <- (image_row H W Y 0 HY HH).
  destruct Y; reflexivity.
Qed.

(** *** The projected cloud *)

Section Cloud.

Variable cm : camera_matrix.
Variables (H W scale : nat) (Y : list (list float)).

Hypothesis Y_image : image H W Y.
Hypothesis scale_pos : (1 <= scale)%nat.

Let xs := arange (length (hd [] Y)).
Let zs := arange_down (length Y).
Let x := fst (meshgrid xs zs).
Let z := snd (meshgrid xs zs).
Let depth := sub2 scale Y.
Let X := zip2 (project cm (xc cm)) (sub2 scale x) depth.
Let Z := zip2 (project cm (zc cm)) (sub2 scale z) depth.

Lemma cloud_eq : slice_cloud cm Y scale = channels X depth Z.
Proof. reflexivity. Qed.

Lemma depth_rows : length depth = length (sub2 scale x)
                   /\ length depth = length (sub2 scale z).
Proof.
  split; apply sub2_length_eq; unfold x, z, meshgrid; cbn [fst snd];
    rewrite length_map; unfold zs; now rewrite arange_down_length.
Qed.

Lemma depth_row_in i :
  (i < length depth)%nat <-> (i * scale < H)%nat.
Proof.
  unfold depth. rewrite sub2_length_lt by exact scale_pos.
  destruct Y_image as [-> _]. reflexivity.
Qed.

Lemma xs_length : (0 < H)%nat -> length xs = W.
Proof.
  intros HH. unfold xs. rewrite arange_length. now apply (image_hd H W).
Qed.

Lemma x_row r : (r < H)%nat -> nth r x [] = xs.
Proof.
  intros Hr. unfold x, meshgrid. cbn [fst].
  apply constant_rows_nth. unfold zs. rewrite arange_down_length.
  destruct Y_image as [-> _]. exact Hr.
Qed.

Lemma z_row r :
  (r < H)%nat ->
  nth r z [] = map (fun _ => inject_Z (Z.of_nat (H - 1 - r))) xs.
Proof.
  intros Hr. unfold z, meshgrid. cbn [snd].
  destruct Y_image as [HY _].
  rewrite (nth_indep _ [] ((fun zv => map (fun _ : Q => zv) xs) 0))
    by (rewrite length_map; unfold zs; rewrite arange_down_length; lia).
  rewrite (map_nth (fun zv => map (fun _ : Q => zv) xs)).
  unfold zs. rewrite arange_down_nth by lia. rewrite HY. reflexivity.
Qed.

Lemma row_lengths i :
  (i * scale < H)%nat ->
  length (nth i (sub2 scale x) []) = length (nth i depth [])
  /\ length (nth i (sub2 scale z) []) = length (nth i depth []).
Proof.
  intros Hi. assert (HH : (0 < H)%nat) by lia.
  unfold depth. rewrite !sub2_row by exact scale_pos.
  rewrite x_row, z_row by exact Hi.
  split; apply strided_length_eq;
    rewrite ?length_map, xs_length, (image_row H W Y) by assumption;
    reflexivity.
Qed.

Lemma depth_col_in i j :
  (i * scale < H)%nat ->
  (j < length (nth i depth []))%nat <-> (j * scale < W)%nat.
Proof.
  intros Hi. unfold depth. rewrite sub2_row by exact scale_pos.
  rewrite strided_length_lt by exact scale_pos.
  rewrite (image_row H W Y) by assumption. reflexivity.
Qed.

Lemma depth_nth i j :
  nth j (nth i depth []) NaN = nth (j * scale) (nth (i * scale) Y []) NaN.
Proof.
  unfold depth. rewrite sub2_row, strided_nth by exact scale_pos.
  reflexivity.
Qed.

Lemma X_shape :
  length X = length depth
  /\ forall i, (i * scale < H)%nat ->
               length (nth i X []) = length (nth i depth []).
Proof.
  destruct depth_rows as [Hx _].
  split.
  - unfold X. rewrite zip2_length; congruence.
  - intros i Hi. destruct (row_lengths i Hi) as [Hr _].
    unfold X. rewrite zip2_row_length; try congruence.
    rewrite <- Hx. now apply depth_row_in.
Qed.

Lemma Z_shape :
  length Z = length depth
  /\ forall i, (i * scale < H)%nat ->
               length (nth i Z []) = length (nth i depth []).
Proof.
  destruct depth_rows as [_ Hz].
  split.
  - unfold Z. rewrite zip2_length; congruence.
  - intros i Hi. destruct (row_lengths i Hi) as [_ Hr].
    unfold Z. rewrite zip2_row_length; try congruence.
    rewrite <- Hz. now apply depth_row_in.
Qed.

Lemma X_nth i j :
  (i * scale < H)%nat -> (j * scale < W)%nat ->
  nth j (nth i X []) NaN
  = project cm (xc cm) (inject_Z (Z.of_nat (j * scale)))
            (nth (j * scale) (nth (i * scale) Y []) NaN).
Proof.
  intros Hi Hj. assert (HH : (0 < H)%nat) by lia.
  destruct depth_rows as [Hx _]. destruct (row_lengths i Hi) as [Hr _].
  unfold X.
  rewrite (zip2_nth _ _ _ i j 0 NaN NaN).
  - rewrite depth_nth.
    rewrite sub2_row, strided_nth, x_row by assumption.
    unfold xs. rewrite arange_nth; [reflexivity|].
    rewrite (image_hd H W) by assumption. exact Hj.
  - rewrite <- Hx. now apply depth_row_in.
  - congruence.
  - rewrite Hr. now apply depth_col_in.
  - exact Hr.
Qed.

Lemma Z_nth i j :
  (i * scale < H)%nat -> (j * scale < W)%nat ->
  nth j (nth i Z []) NaN
  = project cm (zc cm) (inject_Z (Z.of_nat (H - 1 - i * scale)))
            (nth (j * scale) (nth (i * scale) Y []) NaN).
Proof.
  intros Hi Hj. assert (HH : (0 < H)%nat) by lia.
  destruct depth_rows as [_ Hz]. destruct (row_lengths i Hi) as [_ Hr].
  unfold Z.
  rewrite (zip2_nth _ _ _ i j 0 NaN NaN).
  - rewrite depth_nth.
    rewrite sub2_row, strided_nth, z_row by assumption.
    rewrite constant_rows_nth; [reflexivity|].
    rewrite xs_length by exact HH. exact Hj.
  - rewrite <- Hz. now apply depth_row_in.
  - congruence.
  - rewrite Hr. now apply depth_col_in.
  - exact Hr.
Qed.

Lemma cloud_shape :
  length (channels X depth Z) = length depth
  /\ forall i, (i * scale < H)%nat ->
               length (nth i (channels X depth Z) []) = length (nth i depth []).
Proof.
  destruct X_shape as [HX HXr]. destruct Z_shape as [HZ HZr].
  assert (Hp : length (zip2 pair X depth) = length depth)
    by (rewrite zip2_length; congruence).
  split.
  - unfold channels. rewrite zip2_length; congruence.
  - intros i Hi. pose proof (proj2 (depth_row_in i) Hi) as Hin.
    assert (Hpr : length (nth i (zip2 pair X depth) [])
                  = length (nth i depth [])).
    { rewrite zip2_row_length; auto; congruence. }
    unfold channels. rewrite zip2_row_length; try congruence.
    rewrite HZr by exact Hi. exact Hpr.
Qed.

Lemma cloud_nth i j :
  (i * scale < H)%nat -> (j * scale < W)%nat ->
  nth j (nth i (channels X depth Z) []) (mkpoint NaN NaN NaN)
  = mkpoint (nth j (nth i X []) NaN) (nth j (nth i depth []) NaN)
            (nth j (nth i Z []) NaN).
Proof.
  intros Hi Hj.
  destruct X_shape as [HX HXr]. destruct Z_shape as [HZ HZr].
  pose proof (proj2 (depth_row_in i) Hi) as Hin.
  pose proof (proj2 (depth_col_in i j Hi) Hj) as Hjn.
  assert (Hp : length (zip2 pair X depth) = length depth)
    by (rewrite zip2_length; congruence).
  assert (Hpr : length (nth i (zip2 pair X depth) [])
                = length (nth i depth [])).
  { rewrite zip2_row_length; auto; congruence. }
  unfold channels.
  rewrite (zip2_nth _ _ _ i j (NaN, NaN) NaN); try congruence.
  - rewrite (zip2_nth _ _ _ i j NaN NaN); try congruence.
    + reflexivity.
    + rewrite HXr by exact Hi. exact Hjn.
    + now apply HXr.
  - rewrite HZr by exact Hi. exact Hpr.
Qed.

End Cloud.

Lemma batch_channels {A} (P1 P2 : A -> float -> float)
  (gx gz : list (list A)) scale (Ys : list (list (list float))) :
  Splatter.zip_with
    (fun xy zv => channels (fst xy) (snd xy) zv)
    (Splatter.zip_with pair
       (Splatter.zip_with (zip2 P1) (sub3 scale (map (fun _ => gx) Ys))
                          (sub3 scale Ys))
       (sub3 scale Ys))
    (Splatter.zip_with (zip2 P2) (sub3 scale (map (fun _ => gz) Ys))
                       (sub3 scale Ys))
  = map (fun Yb => channels (zip2 P1 (sub2 scale gx) (sub2 scale Yb))
                            (sub2 scale Yb)
                            (zip2 P2 (sub2 scale gz) (sub2 scale Yb)))
        Ys.
Proof.
  unfold sub3. induction Ys as [|Yb Ys IH]; [reflexivity|].
  cbn [map Splatter.zip_with fst snd]. rewrite IH. reflexivity.
Qed.

Lemma image_sizes H W Y Y' :
  image H W Y -> image H W Y' ->
  length Y = length Y' /\ length (hd [] Y) = length (hd [] Y').
Proof.
  intros [HY HYr] [HY' HYr']. split; [congruence|].
  destruct Y as [|r Y], Y' as [|r' Y']; cbn in *; try congruence.
  inversion HYr; inversion HYr'; congruence.
Qed.

(** On a batch of images of one size, [get_point_cloud_from_z_t] returns
    the clouds of the images, in batch order: the batch axis is not
    strided. *)
Lemma cloud_t_eq cm H W scale (Y_t : list (list (list float))) :
  Forall (image H W) Y_t -> (1 <= scale)%nat ->
  get_point_cloud_from_z_t cm Y_t scale
  = Ok (map (fun Y => slice_cloud cm Y scale) Y_t).
Proof.
  intros HY Hs.
  unfold get_point_cloud_from_z_t.
  destruct scale as [|k] eqn:Ek; [lia|]. rewrite <- Ek in *.
  cbn [meshgrid]. rewrite batch_channels.
  f_equal. apply map_ext_in. intros Y HYin.
  unfold slice_cloud. cbn [meshgrid].
  rewrite Forall_forall in HY.
  assert (Hhd : image H W (hd [] Y_t)).
  { destruct Y_t as [|Y0 rest]; [contradiction|]. apply HY. left. reflexivity. }
  destruct (image_sizes H W (hd [] Y_t) Y Hhd (HY Y HYin)) as [-> ->].
  reflexivity.
Qed.

Lemma nth_slice_cloud cm scale (Y_t : list (list (list float))) b :
  (b < length Y_t)%nat ->
  nth b (map (fun Y => slice_cloud cm Y scale) Y_t) []
  = slice_cloud cm (nth b Y_t []) scale.
Proof.
  intros Hb. apply (nth_map_in (fun Y => slice_cloud cm Y scale)). exact Hb.
Qed.

(** X13: on a batch of images of [H] rows and [W] columns,
    [get_point_cloud_from_z_t] returns one cloud per image; each keeps the
    pixels at the multiples of [scale] along both image axes, and the point
    of pixel (row [r], column [c]) is
    [((c - xc) * d / f, d, ((H - 1 - r) - zc) * d / f)] for its depth [d]:
    [x] grows to the right and [z] grows upwards. *)
Theorem projected_pixels
  (cm : camera_matrix) (H W scale : nat) (Y_t : list (list (list float))) :
  Forall (image H W) Y_t -> (1 <= scale)%nat ->
  exists XYZ,
    get_point_cloud_from_z_t cm Y_t scale = Ok XYZ
    /\ length XYZ = length Y_t
    /\ forall b, (b < length Y_t)%nat ->
         let Y := nth b Y_t [] in
         let cloud := nth b XYZ [] in
         (forall i, (i < length cloud)%nat <-> (i * scale < H)%nat)
         /\ (forall i j, (i * scale < H)%nat ->
                (j < length (nth i cloud []))%nat <-> (j * scale < W)%nat)
         /\ (forall i j,
                (i * scale < H)%nat -> (j * scale < W)%nat ->
                let d := nth (j * scale) (nth (i * scale) Y []) NaN in
                nth j (nth i cloud []) (mkpoint NaN NaN NaN)
                = mkpoint
                    (fdiv (fmul (inject_Z (Z.of_nat (j * scale)) - xc cm) d)
                          (f cm))
                    d
                    (fdiv (fmul (inject_Z (Z.of_nat (H - 1 - i * scale))
                                 - zc cm) d)
                          (f cm))).
Proof.
  intros HYt Hs.
  eexists. split; [apply (cloud_t_eq cm H W); assumption|].
  split; [apply length_map|].
  intros b Hb Y cloud. subst cloud. rewrite nth_slice_cloud by exact Hb.
  fold Y.
  assert (HY : image H W Y).
  { rewrite Forall_forall in HYt. apply HYt. apply nth_In. exact Hb. }
  rewrite (cloud_eq cm scale Y).
  destruct (cloud_shape cm H W scale Y HY Hs) as [Hlen Hrows].
  split; [|split].
  - intros i. cbv zeta in Hlen. rewrite Hlen.
    apply (depth_row_in H W scale Y HY Hs).
  - intros i j Hi. cbv zeta in Hrows. rewrite (Hrows i Hi).
    apply (depth_col_in H W scale Y HY Hs); exact Hi.
  - intros i j Hi Hj d.
    pose proof (cloud_nth cm H W scale Y HY Hs i j Hi Hj) as E.
    cbv zeta in E. rewrite E.
    pose proof (X_nth cm H W scale Y HY Hs i j Hi Hj) as EX.
    pose proof (Z_nth cm H W scale Y HY Hs i j Hi Hj) as EZ.
    cbv zeta in EX, EZ. rewrite EX, EZ.
    rewrite (depth_nth scale Y Hs). reflexivity.
Qed.

Lemma projected_pixels_witness :
  let cm := {| xc := 3 # 2; zc := 1 # 2; f := 2 |} in
  let Y := [[Num 4; Num 4; NaN; Num 4]; [Num 2; Num 2; Num 2; Num 6]] in
  exists XYZ,
    get_point_cloud_from_z_t cm [Y] 1 = Ok XYZ
    /\ nth 3 (nth 1 (nth 0 XYZ []) []) (mkpoint NaN NaN NaN)
       = mkpoint (Num ((3 - (3 # 2)) * 6 / 2)) (Num 6)
                 (Num ((0 - (1 # 2)) * 6 / 2)).
Proof.
  intros cm Y.
  destruct (projected_pixels cm 2 4 1 [Y]) as (XYZ & HXYZ & _ & Hpix).
  - repeat constructor.
  - lia.
  - exists XYZ. split; [exact HXYZ|].
    destruct (Hpix 0%nat) as (_ & _ & Hpt); [simpl; lia|].
    rewrite (Hpt 1%nat 3%nat) by lia. reflexivity.
Defined.

Lemma cloud_depth cm H W scale Y :
  image H W Y -> (1 <= scale)%nat ->
  map (map chan1) (slice_cloud cm Y scale) = sub2 scale Y.
Proof.
  intros HY Hs. rewrite (cloud_eq cm scale Y).
  destruct (cloud_shape cm H W scale Y HY Hs) as [Hlen Hrows].
  cbv zeta in Hlen, Hrows.
  apply (nth_ext _ _ [] []).
  - rewrite length_map. exact Hlen.
  - intros i Hi. rewrite length_map, Hlen in Hi.
    pose proof (proj1 (depth_row_in H W scale Y HY Hs i) Hi) as Hi'.
    rewrite (nth_map_in (map chan1) _ i [] []) by lia.
    apply (nth_ext _ _ NaN NaN).
    + rewrite length_map. apply Hrows. exact Hi'.
    + intros j Hj. rewrite length_map, (Hrows i Hi') in Hj.
      pose proof (proj1 (depth_col_in H W scale Y HY Hs i j Hi') Hj) as Hj'.
      rewrite (nth_map_in chan1 _ j (mkpoint NaN NaN NaN) NaN)
        by (rewrite (Hrows i Hi'); exact Hj).
      pose proof (cloud_nth cm H W scale Y HY Hs i j Hi' Hj') as Epix.
      cbv zeta in Epix. rewrite Epix. reflexivity.
Qed.

(** X14: the depth is read back from channel 1 of the cloud that
    [get_point_cloud_from_z_t] returns: that channel is the batch of depth
    images strided along the two image axes, and the batch itself when
    [scale] is 1. *)
Theorem depth_is_channel_1
  (cm : camera_matrix) (H W scale : nat) (Y_t : list (list (list float))) :
  Forall (image H W) Y_t -> (1 <= scale)%nat ->
  exists XYZ,
    get_point_cloud_from_z_t cm Y_t scale = Ok XYZ
    /\ map (map (map chan1)) XYZ = sub3 scale Y_t
    /\ (scale = 1%nat -> map (map (map chan1)) XYZ = Y_t).
Proof.
  intros HYt Hs.
  eexists. split; [apply (cloud_t_eq cm H W); assumption|].
  match goal with
  | |- ?P /\ _ => assert (E : P)
  end.
  { rewrite map_map. unfold sub3. apply map_ext_in. intros Y HY.
    rewrite Forall_forall in HYt. apply (cloud_depth cm H W); auto. }
  split; [exact E|].
  intros ->. rewrite E. unfold sub3.
  rewrite (map_ext _ (fun Y => Y)); [apply map_id|].
  intros Y. unfold sub2. rewrite strided_one.
  rewrite (map_ext _ (fun row => row)) by (intros row; apply strided_one).
  apply map_id.
Qed.

Lemma depth_is_channel_1_witness :
  let cm := {| xc := 3 # 2; zc := 1 # 2; f := 2 |} in
  let Y := [[Num 4; Num 4; NaN; Num 4]; [Num 2; Num 2; Num 2; Num 6]] in
  exists XYZ,
    get_point_cloud_from_z_t cm [Y; Y] 1 = Ok XYZ
    /\ map (map (map chan1)) XYZ = [Y; Y].
Proof.
  intros cm Y.
  destruct (depth_is_channel_1 cm 2 4 1 [Y; Y]) as (XYZ & HXYZ & _ & Hone).
  - repeat constructor.
  - lia.
  - exists XYZ. split; [exact HXYZ | exact (Hone eq_refl)].
Defined.

(** A pixel without depth has no coordinate at all, and a pixel with a
    finite depth has three finite-or-infinite coordinates: the projection
    is NaN exactly when the depth is. *)
Lemma project_isnan cm centre g d :
  ~ f cm == 0 -> not_infinite d ->
  isnan (project cm centre g d) = isnan d.
Proof.
  intros Hf Hd. unfold project, fmul, fdiv.
  destruct d as [|s|q]; [reflexivity | contradiction |].
  destruct (Qeq_bool (f cm) 0) eqn:E; [|reflexivity].
  apply Qeq_bool_eq in E. contradiction.
Qed.

(** X15: when the focal length is not zero and no depth is infinite, every
    point of the cloud that [get_point_cloud_from_z_t] returns has either
    three NaN coordinates or none, the former exactly when its depth is
    NaN; on such a point the test of channel 0 that [bin_points] makes
    ([isnotnan]) decides whether any coordinate is NaN. *)
Theorem projected_points_nan_together
  (cm : camera_matrix) (H W scale : nat) (Y_t : list (list (list float))) :
  Forall (image H W) Y_t -> (1 <= scale)%nat ->
  ~ f cm == 0 ->
  Forall (Forall (Forall not_infinite)) Y_t ->
  exists XYZ,
    get_point_cloud_from_z_t cm Y_t scale = Ok XYZ
    /\ Forall (fun cloud =>
                 Forall (fun p => isnan (chan0 p) = isnan (chan1 p)
                                  /\ isnan (chan2 p) = isnan (chan1 p)
                                  /\ isnotnan p
                                     = negb (Transformer.has_nan p))
                        (ravel cloud))
              XYZ.
Proof.
  intros HYt Hs Hf Hfin.
  eexists. split; [apply (cloud_t_eq cm H W); assumption|].
  apply Forall_map, Forall_forall. intros Y HYin.
  rewrite Forall_forall in HYt, Hfin.
  pose proof (HYt Y HYin) as HY. pose proof (Hfin Y HYin) as HfinY.
  rewrite (cloud_eq cm scale Y).
  destruct (cloud_shape cm H W scale Y HY Hs) as [Hlen Hrows].
  cbv zeta in Hlen, Hrows.
  set (XYZ := channels _ _ _) in *.
  unfold ravel. apply Forall_concat. apply Forall_forall. intros row Hrow.
  destruct (In_nth _ _ [] Hrow) as (i & Hi & <-).
  rewrite Hlen in Hi.
  pose proof (proj1 (depth_row_in H W scale Y HY Hs i) Hi) as Hi'.
  apply Forall_forall. intros p Hp.
  destruct (In_nth _ _ (mkpoint NaN NaN NaN) Hp) as (j & Hj & <-).
  rewrite (Hrows i Hi') in Hj.
  pose proof (proj1 (depth_col_in H W scale Y HY Hs i j Hi') Hj) as Hj'.
  pose proof (cloud_nth cm H W scale Y HY Hs i j Hi' Hj') as Epix.
  cbv zeta in Epix. fold XYZ in Epix. rewrite Epix.
  unfold isnotnan, Transformer.has_nan. cbn [chan0 chan1 chan2].
  pose proof (X_nth cm H W scale Y HY Hs i j Hi' Hj') as EX.
  pose proof (Z_nth cm H W scale Y HY Hs i j Hi' Hj') as EZ.
  cbv zeta in EX, EZ. rewrite EX, EZ, (depth_nth scale Y Hs).
  assert (Hd : not_infinite (nth (j * scale) (nth (i * scale) Y []) NaN)).
  { destruct HY as [HYl HYr].
    assert (Hin : In (nth (i * scale) Y []) Y) by (apply nth_In; lia).
    rewrite Forall_forall in HfinY.
    pose proof (HfinY _ Hin) as Hr. rewrite Forall_forall in Hr.
    apply Hr. apply nth_In.
    rewrite Forall_forall in HYr. rewrite (HYr _ Hin). exact Hj'. }
  rewrite !(project_isnan cm _ _ _ Hf Hd).
  repeat split. destruct (isnan _); reflexivity.
Qed.

Lemma projected_points_nan_together_witness :
  let cm := {| xc := 1 # 2; zc := 1 # 2; f := 1 |} in
  let Y := [[Num 1; NaN]; [Num 1; Num 3]] in
  exists XYZ,
    get_point_cloud_from_z_t cm [Y] 1 = Ok XYZ
    /\ Forall (fun cloud =>
                 Forall (fun p => isnan (chan0 p) = isnan (chan1 p)
                                  /\ isnan (chan2 p) = isnan (chan1 p)
                                  /\ isnotnan p
                                     = negb (Transformer.has_nan p))
                        (ravel cloud))
              XYZ.
Proof.
  intros cm Y.
  apply (projected_points_nan_together cm 2 2 1 [Y]).
  - repeat constructor.
  - lia.
  - discriminate.
  - repeat constructor.
Defined.


End ProjectorFacts.

(** * Properties of the frame transformer *)

Section TransformerFacts.

Import Binner Projector Transformer.
Local Open Scope Q_scope.

Lemma fadd_nan_r x : fadd x NaN = NaN.
Proof. destruct x; reflexivity. Qed.

Lemma dot_nan p r : has_nan p = true -> dot p r = NaN.
Proof.
  unfold has_nan, dot. destruct r as [[r0 r1] r2].
  destruct (chan0 p) eqn:E0; cbn [isnan orb].
  - intros _. reflexivity.
  - destruct (chan1 p) eqn:E1; cbn [isnan orb].
    + intros _. cbn [Transformer.fmul]. rewrite fadd_nan_r. reflexivity.
    + destruct (chan2 p) eqn:E2; cbn [isnan]; try discriminate.
      intros _. cbn [Transformer.fmul]. apply fadd_nan_r.
    + destruct (chan2 p) eqn:E2; cbn [isnan]; try discriminate.
      intros _. cbn [Transformer.fmul]. apply fadd_nan_r.
  - destruct (chan1 p) eqn:E1; cbn [isnan orb].
    + intros _. cbn [Transformer.fmul]. rewrite fadd_nan_r. reflexivity.
    + destruct (chan2 p) eqn:E2; cbn [isnan]; try discriminate.
      intros _. cbn [Transformer.fmul]. apply fadd_nan_r.
    + destruct (chan2 p) eqn:E2; cbn [isnan]; try discriminate.
      intros _. cbn [Transformer.fmul]. apply fadd_nan_r.
Qed.

Lemma rotate_nan R p : has_nan p = true -> all_nan (rotate R p).
Proof.
  intros H. destruct R as [[R0 R1] R2]. unfold rotate, all_nan.
  cbn [chan0 chan1 chan2]. rewrite !dot_nan by exact H. auto.
Qed.

Lemma all_nan_has_nan p : all_nan p -> has_nan p = true.
Proof. intros (H & _ & _). unfold has_nan. rewrite H. reflexivity. Qed.

Lemma all_nan_invalid indefinite map_size z_bins xy_resolution p :
  all_nan p -> isvalid indefinite map_size z_bins xy_resolution p = false.
Proof.
  intros (H0 & _ & _). unfold isvalid, isnotnan. rewrite H0.
  cbn [isnan negb]. apply andb_false_r.
Qed.

Lemma transform_camera_view_points R XYZ sensor_height :
  transform_camera_view R XYZ sensor_height
  = map (map (camera_view_point R sensor_height)) XYZ.
Proof.
  unfold transform_camera_view. rewrite map_map.
  apply map_ext. intros row. rewrite map_map. reflexivity.
Qed.

Lemma transform_pose_points R XYZ current_pose :
  transform_pose R XYZ current_pose
  = map (map (pose_point R current_pose)) XYZ.
Proof.
  unfold transform_pose. rewrite !map_map.
  apply map_ext. intros row. rewrite !map_map. reflexivity.
Qed.

(** X18: a point with a NaN coordinate comes out of either transform, and
    of the two in a row, with three NaN coordinates, whatever the rotation
    matrices; the binner, which tests the first coordinate only, then never
    counts it. *)
Theorem nan_points_stay_nan
  (R1 R2 : matrix) (sensor_height : Q) (current_pose : Q * Q)
  (XYZ : list (list point))
  (indefinite : float -> Z) (map_size : Z) (z_bins : list Q)
  (xy_resolution : Q) :
  transform_pose R2 (transform_camera_view R1 XYZ sensor_height) current_pose
  = map (map (fun p => pose_point R2 current_pose
                                  (camera_view_point R1 sensor_height p)))
        XYZ
  /\ forall p,
      has_nan p = true ->
      all_nan (camera_view_point R1 sensor_height p)
      /\ all_nan (pose_point R2 current_pose p)
      /\ all_nan (pose_point R2 current_pose
                             (camera_view_point R1 sensor_height p))
      /\ isvalid indefinite map_size z_bins xy_resolution
                 (pose_point R2 current_pose
                             (camera_view_point R1 sensor_height p))
         = false.
Proof.
  split.
  - rewrite transform_camera_view_points, transform_pose_points, map_map.
    apply map_ext. intros row. apply map_map.
  - intros p Hp.
    assert (Hview : forall R h q,
               has_nan q = true -> all_nan (camera_view_point R h q)).
    { intros R h q Hq. destruct (rotate_nan R q Hq) as (E0 & E1 & E2).
      unfold camera_view_point, all_nan. cbn [chan0 chan1 chan2].
      rewrite E0, E1, E2. auto. }
    assert (Hpose : forall R c q,
               has_nan q = true -> all_nan (pose_point R c q)).
    { intros R c q Hq. destruct (rotate_nan R q Hq) as (E0 & E1 & E2).
      unfold pose_point, all_nan. cbn [chan0 chan1 chan2].
      rewrite E0, E1, E2. auto. }
    assert (Hboth : all_nan (pose_point R2 current_pose
                               (camera_view_point R1 sensor_height p))).
    { apply Hpose. apply all_nan_has_nan. apply Hview. exact Hp. }
    split; [apply Hview; exact Hp|]. split; [apply Hpose; exact Hp|].
    split; [exact Hboth|]. apply all_nan_invalid. exact Hboth.
Qed.

End TransformerFacts.


(** * Rigid motion *)

Section RigidFacts.

Import Binner Transformer Pipeline.
Local Open Scope Q_scope.

Lemma rotated_distance (a b c d e f g h i x y z : Q) :
  a * a + d * d + g * g == 1 ->
  b * b + e * e + h * h == 1 ->
  c * c + f * f + i * i == 1 ->
  a * b + d * e + g * h == 0 ->
  a * c + d * f + g * i == 0 ->
  b * c + e * f + h * i == 0 ->
  (a * x + b * y + c * z) ^ 2 + (d * x + e * y + f * z) ^ 2
  + (g * x + h * y + i * z) ^ 2
  == x ^ 2 + y ^ 2 + z ^ 2.
Proof.
  intros H1 H2 H3 H4 H5 H6.
  setoid_replace ((a * x + b * y + c * z) ^ 2 + (d * x + e * y + f * z) ^ 2
                  + (g * x + h * y + i * z) ^ 2)
    with (x * x * (a * a + d * d + g * g) + y * y * (b * b + e * e + h * h)
          + z * z * (c * c + f * f + i * i)
          + 2 * x * y * (a * b + d * e + g * h)
          + 2 * x * z * (a * c + d * f + g * i)
          + 2 * y * z * (b * c + e * f + h * i)) by ring.
  rewrite H1, H2, H3, H4, H5, H6. ring.
Qed.

(** X20: when the matrix of a transform is finite with orthonormal columns,
    as a rotation matrix is, both transforms keep the distance between any
    two points of finite coordinates: the offsets they add cancel. *)
Theorem transforms_preserve_distances
  (R : matrix) (sensor_height : Q) (current_pose : Q * Q) (p q : point) :
  finite_matrix R -> orthonormal R ->
  all_finite p -> all_finite q ->
  dist2 (camera_view_point R sensor_height p)
        (camera_view_point R sensor_height q) == dist2 p q
  /\ dist2 (pose_point R current_pose p) (pose_point R current_pose q)
     == dist2 p q.
Proof.
  destruct R as [[[[a b] c] [[d e] f]] [[g h] i]].
  intros (Ha & Hd & Hg) Ho (P0 & P1 & P2) (Q0 & Q1 & Q2).
  destruct Ha as (Ha & Hb & Hc), Hd as (Hd & He & Hf), Hg as (Hg & Hh & Hi).
  destruct p as [p0 p1 p2], q as [q0 q1 q2]. cbn [chan0 chan1 chan2] in *.
  destruct a as [| |ra]; try contradiction.
  destruct b as [| |rb]; try contradiction.
  destruct c as [| |rc]; try contradiction.
  destruct d as [| |rd]; try contradiction.
  destruct e as [| |re]; try contradiction.
  destruct f as [| |rf]; try contradiction.
  destruct g as [| |rg]; try contradiction.
  destruct h as [| |rh]; try contradiction.
  destruct i as [| |ri]; try contradiction.
  destruct p0 as [| |x0]; try contradiction.
  destruct p1 as [| |x1]; try contradiction.
  destruct p2 as [| |x2]; try contradiction.
  destruct q0 as [| |y0]; try contradiction.
  destruct q1 as [| |y1]; try contradiction.
  destruct q2 as [| |y2]; try contradiction.
  cbn in Ho. destruct Ho as (H1 & H2 & H3 & H4 & H5 & H6).
  unfold dist2, camera_view_point, pose_point, rotate, dot.
  cbn [chan0 chan1 chan2 Transformer.fmul fadd coord fst snd].
  pose proof (rotated_distance ra rb rc rd re rf rg rh ri
                (x0 - y0) (x1 - y1) (x2 - y2) H1 H2 H3 H4 H5 H6) as E.
  split; rewrite <- E; ring.
Qed.

Lemma transforms_preserve_distances_witness :
  let Rz := ((Num 0, Num (- (1)), Num 0), (Num 1, Num 0, Num 0),
             (Num 0, Num 0, Num 1)) in
  let p := mkpoint (Num 1) (Num 2) (Num 3) in
  let q := mkpoint (Num 4) (Num 6) (Num 3) in
  dist2 (pose_point Rz (10, 20) p) (pose_point Rz (10, 20) q) == 25.
Proof.
  intros Rz p q.
  destruct (transforms_preserve_distances Rz 0 (10, 20) p q) as [_ Hpose].
  - cbn. repeat split.
  - cbn. repeat split; reflexivity.
  - cbn. repeat split.
  - cbn. repeat split.
  - rewrite Hpose. reflexivity.
Defined.

End RigidFacts.
